(** * SnugInt: checked integer arithmetic (SnugInt.h / SnugInt.tpp)

    A shallow embedding of the class template [SnugInt<Type>] and of the
    C++ expression semantics its member functions rely on: integer
    promotion, the usual arithmetic conversions, wrap-around of unsigned
    arithmetic, undefined behaviour of signed overflow and of division
    by zero, and exceptions.

    The integral types are the standard integer types of an LP64
    platform, identified by signedness and width (8, 16, 32 or 64 bits);
    [int] is 32 bits wide.  [bool] and the character types are left out. *)

From Stdlib Require Import ZArith Bool Lia String.

Local Open Scope Z_scope.

(** ** Integral types and their limits *)

Inductive width : Set := W8 | W16 | W32 | W64.

Inductive ctype : Set :=
| Signed (w : width)
| Unsigned (w : width).

Definition bits (w : width) : Z :=
  match w with W8 => 8 | W16 => 16 | W32 => 32 | W64 => 64 end.

Definition int : ctype := Signed W32.

Definition is_signed (t : ctype) : bool :=
  match t with Signed _ => true | Unsigned _ => false end.

(** [std::numeric_limits<Type>::min()] and [::max()]. *)
Definition numeric_limits_min (t : ctype) : Z :=
  match t with
  | Signed w => - 2 ^ (bits w - 1)
  | Unsigned _ => 0
  end.

Definition numeric_limits_max (t : ctype) : Z :=
  match t with
  | Signed w => 2 ^ (bits w - 1) - 1
  | Unsigned w => 2 ^ bits w - 1
  end.

Definition in_range (t : ctype) (v : Z) : Prop :=
  numeric_limits_min t <= v <= numeric_limits_max t.

Definition in_rangeb (t : ctype) (v : Z) : bool :=
  (numeric_limits_min t <=? v) && (v <=? numeric_limits_max t).

(** Conversion of a value to type [t], as an assignment or an argument
    passing performs it: modulo 2^bits, two's complement for the signed
    types. *)
Definition convert (t : ctype) (v : Z) : Z :=
  match t with
  | Unsigned w => v mod 2 ^ bits w
  | Signed w => (v + 2 ^ (bits w - 1)) mod 2 ^ bits w - 2 ^ (bits w - 1)
  end.

(** Integer promotion: every type narrower than [int] becomes [int]. *)
Definition promote (t : ctype) : ctype :=
  match t with
  | Signed W8 | Signed W16 | Unsigned W8 | Unsigned W16 => int
  | _ => t
  end.

Definition wider (a b : width) : width :=
  if bits a <=? bits b then b else a.

(** The usual arithmetic conversions: the type in which a binary
    operator evaluates its two operands. *)
Definition usual_arithmetic_conversions (a b : ctype) : ctype :=
  match promote a, promote b with
  | Signed x, Signed y => Signed (wider x y)
  | Unsigned x, Unsigned y => Unsigned (wider x y)
  | Signed s, Unsigned u | Unsigned u, Signed s =>
      if bits s <=? bits u then Unsigned u else Signed s
  end.

(** ** Exceptions and outcomes *)

(** The eight global exception objects of SnugInt.h. *)
Inductive exn : Set :=
| snugint_add_overflow
| snugint_add_underflow
| snugint_sub_overflow
| snugint_sub_underflow
| snugint_mult_overflow
| snugint_mult_underflow
| snugint_size_mismatch
| snugint_type_mismatch.

(** [what()] of each exception class. *)
Definition what (e : exn) : string :=
  match e with
  | snugint_add_overflow =>
      "SnugInt addition operation prevented, OVERFLOW would have occurred"
  | snugint_add_underflow =>
      "SnugInt addition operation prevented, UNDERFLOW would have occurred"
  | snugint_sub_overflow =>
      "SnugInt subtraction operation prevented, OVERFLOW would have occurred"
  | snugint_sub_underflow =>
      "SnugInt subtraction operation prevented, UNDERFLOW would have occurred"
  | snugint_mult_overflow =>
      "SnugInt multiplication operation prevented, OVERFLOW would have occurred"
  | snugint_mult_underflow =>
      "SnugInt multiplication operation prevented, UNDERFLOW would have occurred"
  | snugint_size_mismatch => "SnugInt Size Mismatch, Operation Failure"
  | snugint_type_mismatch => "SnugInt Type Mismatch, Operation Failure"
  end%string.

(** What evaluating an expression or calling a function leads to: a
    value, a thrown exception, or undefined behaviour. *)
Inductive outcome (A : Type) : Type :=
| Ok (a : A)
| Throw (e : exn)
| Undefined.

Arguments Ok {A} a.
Arguments Throw {A} e.
Arguments Undefined {A}.

Definition bind {A B : Type} (m : outcome A) (k : A -> outcome B) : outcome B :=
  match m with
  | Ok a => k a
  | Throw e => Throw e
  | Undefined => Undefined
  end.

Notation "x <- m ;; k" := (bind m (fun x => k))
  (at level 61, m at next level, right associativity).
Notation "m ;;; k" := (bind m (fun _ => k))
  (at level 61, right associativity).

(** ** Typed values and the built-in operators *)

Record rvalue : Set := Rv { rtype : ctype; rval : Z }.

(** The literals [0] and [1] have type [int]. *)
Definition lit (n : Z) : rvalue := Rv int n.

Definition compare_with (rel : Z -> Z -> bool) (a b : rvalue) : bool :=
  let t := usual_arithmetic_conversions (rtype a) (rtype b) in
  rel (convert t (rval a)) (convert t (rval b)).

Definition cmp_lt : rvalue -> rvalue -> bool := compare_with Z.ltb.
Definition cmp_gt : rvalue -> rvalue -> bool := compare_with Z.gtb.
Definition cmp_eq : rvalue -> rvalue -> bool := compare_with Z.eqb.
Definition cmp_ne (a b : rvalue) : bool := negb (cmp_eq a b).
Definition cmp_ge : rvalue -> rvalue -> bool := compare_with Z.geb.
Definition cmp_le : rvalue -> rvalue -> bool := compare_with Z.leb.

(** Arithmetic in the common type: unsigned results wrap, a signed
    result that is not representable is undefined behaviour. *)
Definition arith (op : Z -> Z -> Z) (a b : rvalue) : outcome rvalue :=
  let t := usual_arithmetic_conversions (rtype a) (rtype b) in
  let r := op (convert t (rval a)) (convert t (rval b)) in
  match t with
  | Unsigned _ => Ok (Rv t (convert t r))
  | Signed _ => if in_rangeb t r then Ok (Rv t r) else Undefined
  end.

Definition op_add : rvalue -> rvalue -> outcome rvalue := arith Z.add.
Definition op_sub : rvalue -> rvalue -> outcome rvalue := arith Z.sub.
Definition op_mul : rvalue -> rvalue -> outcome rvalue := arith Z.mul.

(** Division truncates toward zero; a zero divisor is undefined. *)
Definition op_div (a b : rvalue) : outcome rvalue :=
  let t := usual_arithmetic_conversions (rtype a) (rtype b) in
  if convert t (rval b) =? 0 then Undefined else arith Z.quot a b.

(** [abs] is C's [int abs(int)], the only [abs] the included headers
    declare at global scope: the argument is converted to [int], and
    [abs(INT_MIN)] is undefined. *)
Definition abs (a : rvalue) : outcome rvalue :=
  let v := convert int (rval a) in
  if v =? numeric_limits_min int then Undefined else Ok (Rv int (Z.abs v)).

(** ** The class SnugInt<Type>

    A function that returns a local [SnugInt] by value is modelled as
    returning that object; the copy the compiler may elide is left out. *)

Record SnugInt : Set := { value : Z; max : Z; min : Z }.

Definition getValue (this : SnugInt) : Z := value this.

Section SnugInt_members.

(** The template parameter [Type]. *)
Variable T : ctype.

(** [SnugInt()] *)
Definition SnugInt_ctor : outcome SnugInt :=
  let min := numeric_limits_min T in
  let max := numeric_limits_max T in
  if cmp_eq (Rv T min) (Rv T max) then Throw snugint_type_mismatch
  else Ok {| value := 0; max := max; min := min |}.

(** [SnugInt(const SnugInt<Type> &other)] *)
Definition SnugInt_ctor_copy (other : SnugInt) : outcome SnugInt :=
  let max := max other in
  let min := min other in
  if cmp_eq (Rv T min) (Rv T max) then Throw snugint_type_mismatch
  else Ok {| value := value other; max := max; min := min |}.

(** [template<class T> SnugInt(const T &item)]: the item keeps its own
    static type in the two comparisons, and is converted to [Type] by
    the assignment [value = item]. *)
Definition SnugInt_ctor_item (item : rvalue) : outcome SnugInt :=
  let min := numeric_limits_min T in
  let max := numeric_limits_max T in
  if cmp_eq (Rv T min) (Rv T max) then Throw snugint_type_mismatch
  else if cmp_gt item (Rv T max) || cmp_lt item (Rv T min)
       then Throw snugint_size_mismatch
       else Ok {| value := convert T (rval item); max := max; min := min |}.

Definition val (s : SnugInt) : rvalue := Rv T (value s).
Definition maxv (s : SnugInt) : rvalue := Rv T (max s).
Definition minv (s : SnugInt) : rvalue := Rv T (min s).

Definition SafeAdd (left right : SnugInt) : outcome SnugInt :=
  (if cmp_gt (val left) (lit 0) && cmp_gt (val right) (lit 0) then
     d <- op_sub (maxv left) (val left) ;;
     if cmp_lt d (val right) then Throw snugint_add_overflow else Ok tt
   else if cmp_lt (val left) (lit 0) && cmp_lt (val right) (lit 0) then
     d <- op_sub (minv left) (val left) ;;
     if cmp_gt d (val right) then Throw snugint_add_underflow else Ok tt
   else Ok tt) ;;;
  s <- op_add (val left) (val right) ;;
  SnugInt_ctor_item s.

Definition SafeSub (left right : SnugInt) : outcome SnugInt :=
  (if cmp_gt (val left) (lit 0) && cmp_lt (val right) (lit 0) then
     d <- op_sub (maxv left) (val left) ;;
     a <- abs (val right) ;;
     if cmp_lt d a then Throw snugint_sub_overflow else Ok tt
   else if cmp_lt (val left) (lit 0) && cmp_gt (val right) (lit 0) then
     d <- op_sub (minv left) (val left) ;;
     a <- abs d ;;
     if cmp_lt a (val right) then Throw snugint_sub_underflow else Ok tt
   else Ok tt) ;;;
  d <- op_sub (val left) (val right) ;;
  SnugInt_ctor_item d.

Definition SafeMult (left right : SnugInt) : outcome SnugInt :=
  (if cmp_gt (val left) (lit 0) then
     if cmp_gt (val right) (lit 0) then
       q <- op_div (maxv left) (val right) ;;
       if cmp_gt (val left) q then Throw snugint_mult_overflow else Ok tt
     else
       q <- op_div (minv left) (val left) ;;
       if cmp_lt (val right) q then Throw snugint_mult_underflow else Ok tt
   else
     if cmp_gt (val right) (lit 0) then
       q <- op_div (minv left) (val right) ;;
       if cmp_lt (val left) q then Throw snugint_mult_underflow else Ok tt
     else
       if cmp_ne (val left) (lit 0) then
         q <- op_div (maxv left) (val left) ;;
         if cmp_lt (val right) q then Throw snugint_mult_overflow else Ok tt
       else Ok tt) ;;;
  p <- op_mul (val left) (val right) ;;
  SnugInt_ctor_item p.

Definition SafeDiv (left right : SnugInt) : outcome SnugInt :=
  q <- op_div (val left) (val right) ;;
  SnugInt_ctor_item q.

(** *** Operators built on the four checked functions *)

Definition operator_plus (left right : SnugInt) : outcome SnugInt :=
  SafeAdd left right.
Definition operator_minus (left right : SnugInt) : outcome SnugInt :=
  SafeSub left right.
Definition operator_times (left right : SnugInt) : outcome SnugInt :=
  SafeMult left right.
Definition operator_divide (left right : SnugInt) : outcome SnugInt :=
  SafeDiv left right.

(** (SnugInt, T): the raw right operand has the wrapper's own type. *)
Definition operator_plus_r (left : SnugInt) (right : Z) : outcome SnugInt :=
  temp <- SnugInt_ctor_item (Rv T right) ;; SafeAdd left temp.
Definition operator_minus_r (left : SnugInt) (right : Z) : outcome SnugInt :=
  temp <- SnugInt_ctor_item (Rv T right) ;; SafeSub left temp.
Definition operator_times_r (left : SnugInt) (right : Z) : outcome SnugInt :=
  temp <- SnugInt_ctor_item (Rv T right) ;; SafeMult left temp.
Definition operator_divide_r (left : SnugInt) (right : Z) : outcome SnugInt :=
  temp <- SnugInt_ctor_item (Rv T right) ;; SafeDiv left temp.

(** (T, SnugInt) *)
Definition operator_plus_l (left : Z) (right : SnugInt) : outcome SnugInt :=
  temp <- SnugInt_ctor_item (Rv T left) ;; SafeAdd temp right.
Definition operator_minus_l (left : Z) (right : SnugInt) : outcome SnugInt :=
  temp <- SnugInt_ctor_item (Rv T left) ;; SafeSub temp right.
Definition operator_times_l (left : Z) (right : SnugInt) : outcome SnugInt :=
  temp <- SnugInt_ctor_item (Rv T left) ;; SafeMult temp right.
Definition operator_divide_l (left : Z) (right : SnugInt) : outcome SnugInt :=
  temp <- SnugInt_ctor_item (Rv T left) ;; SafeDiv temp right.

(** *** Member functions that mutate [*this]

    A call ends by returning (with the object's new state and the
    returned value), by throwing (with the state the object is left
    in), or in undefined behaviour. *)

Inductive completion (A : Type) : Type :=
| Returns (this' : SnugInt) (r : A)
| Raises (this' : SnugInt) (e : exn)
| UB.

Arguments Returns {A} this' r.
Arguments Raises {A} this' e.
Arguments UB {A}.

Definition set_value (this : SnugInt) (v : Z) : SnugInt :=
  {| value := v; max := max this; min := min this |}.

(** [operator=(const SnugInt<Type> &other)] *)
Definition operator_assign (this other : SnugInt) : completion SnugInt :=
  let this' := {| value := value other; max := max other; min := min other |} in
  Returns this' this'.

(** [operator=(const Type &other)] *)
Definition operator_assign_Type (this : SnugInt) (other : Z) : completion SnugInt :=
  let this' := set_value this other in
  Returns this' this'.

(** [operator+=(const SnugInt<Type>& other)]: the first argument of
    [SafeAdd] is the raw [value], wrapped by the converting constructor. *)
Definition operator_plus_assign (this other : SnugInt) : completion SnugInt :=
  match (left <- SnugInt_ctor_item (val this) ;;
         sum <- SafeAdd left other ;;
         Ok (getValue sum)) with
  | Ok v => let this' := set_value this v in Returns this' this'
  | Throw e => Raises this e
  | Undefined => UB
  end.

(** [operator+=(const Type& other)] *)
Definition operator_plus_assign_Type (this : SnugInt) (other : Z) : completion SnugInt :=
  match (temp <- SnugInt_ctor_item (Rv T other) ;;
         left <- SnugInt_ctor_item (val this) ;;
         sum <- SafeAdd left temp ;;
         Ok (getValue sum)) with
  | Ok v => let this' := set_value this v in Returns this' this'
  | Throw e => Raises this e
  | Undefined => UB
  end.

(** [value++] and [value--] on a member of type [Type]: computed in
    the promoted type and converted back. *)
Definition step_value (op : rvalue -> rvalue -> outcome rvalue)
    (this : SnugInt) : completion SnugInt :=
  match op (val this) (lit 1) with
  | Ok r => let this' := set_value this (convert T (rval r)) in Returns this' this'
  | Throw e => Raises this e
  | Undefined => UB
  end.

(** [operator++()] *)
Definition operator_inc (this : SnugInt) : completion SnugInt :=
  if cmp_eq (val this) (maxv this) then Raises this snugint_add_overflow
  else step_value op_add this.

(** [operator++(int)] *)
Definition operator_inc_post (this : SnugInt) : completion SnugInt :=
  if cmp_eq (val this) (maxv this) then Raises this snugint_add_overflow
  else match SnugInt_ctor_copy this with
       | Ok temp =>
           match operator_inc this with
           | Returns this' _ => Returns this' temp
           | Raises this' e => Raises this' e
           | UB => UB
           end
       | Throw e => Raises this e
       | Undefined => UB
       end.

(** [operator--()] *)
Definition operator_dec (this : SnugInt) : completion SnugInt :=
  if cmp_eq (val this) (minv this) then Raises this snugint_sub_underflow
  else step_value op_sub this.

(** [operator--(int)] *)
Definition operator_dec_post (this : SnugInt) : completion SnugInt :=
  if cmp_eq (val this) (minv this) then Raises this snugint_sub_underflow
  else match SnugInt_ctor_copy this with
       | Ok temp =>
           match operator_dec this with
           | Returns this' _ => Returns this' temp
           | Raises this' e => Raises this' e
           | UB => UB
           end
       | Throw e => Raises this e
       | Undefined => UB
       end.

End SnugInt_members.

Arguments Returns {A} this' r.
Arguments Raises {A} this' e.
Arguments UB {A}.

(** ** Comparison operators

    Each one compares the stored values with the built-in operator. *)

Section SnugInt_comparisons.

Variable T : ctype.

(** (SnugInt, SnugInt) *)
Definition operator_lt (left right : SnugInt) : bool :=
  cmp_lt (val T left) (val T right).
Definition operator_gt (left right : SnugInt) : bool :=
  cmp_gt (val T left) (val T right).
Definition operator_eq (left right : SnugInt) : bool :=
  cmp_eq (val T left) (val T right).
Definition operator_ne (left right : SnugInt) : bool :=
  cmp_ne (val T left) (val T right).
Definition operator_ge (left right : SnugInt) : bool :=
  cmp_ge (val T left) (val T right).
Definition operator_le (left right : SnugInt) : bool :=
  cmp_le (val T left) (val T right).

(** (SnugInt, T) *)
Definition operator_lt_r (left : SnugInt) (right : Z) : bool :=
  cmp_lt (val T left) (Rv T right).
Definition operator_gt_r (left : SnugInt) (right : Z) : bool :=
  cmp_gt (val T left) (Rv T right).
Definition operator_eq_r (left : SnugInt) (right : Z) : bool :=
  cmp_eq (val T left) (Rv T right).
Definition operator_ne_r (left : SnugInt) (right : Z) : bool :=
  cmp_ne (val T left) (Rv T right).
Definition operator_ge_r (left : SnugInt) (right : Z) : bool :=
  cmp_ge (val T left) (Rv T right).
Definition operator_le_r (left : SnugInt) (right : Z) : bool :=
  cmp_le (val T left) (Rv T right).

(** (T, SnugInt) *)
Definition operator_lt_l (left : Z) (right : SnugInt) : bool :=
  cmp_lt (Rv T left) (val T right).
Definition operator_gt_l (left : Z) (right : SnugInt) : bool :=
  cmp_gt (Rv T left) (val T right).
Definition operator_eq_l (left : Z) (right : SnugInt) : bool :=
  cmp_eq (Rv T left) (val T right).
Definition operator_ne_l (left : Z) (right : SnugInt) : bool :=
  cmp_ne (Rv T left) (val T right).
Definition operator_ge_l (left : Z) (right : SnugInt) : bool :=
  cmp_ge (Rv T left) (val T right).
Definition operator_le_l (left : Z) (right : SnugInt) : bool :=
  cmp_le (Rv T left) (val T right).

End SnugInt_comparisons.

(** ** Well-formed instances

    The three members have type [Type], and [max]/[min] are only ever
    set from [std::numeric_limits<Type>] or copied from another
    instance. *)
Definition wf (T : ctype) (s : SnugInt) : Prop :=
  min s = numeric_limits_min T /\
  max s = numeric_limits_max T /\
  in_range T (value s).

(** The state invariant of the data model. *)
Definition invariant (s : SnugInt) : Prop :=
  min s <= value s <= max s /\ min s < max s.

Definition preserved (T : ctype) (s : SnugInt) : Prop := wf T s /\ invariant s.

(** A successful call yields a well-formed instance. *)
Definition preserves (T : ctype) (o : outcome SnugInt) : Prop :=
  forall s, o = Ok s -> preserved T s.

(** A member function that returns leaves [*this] well formed, and what
    it returns as well. *)
Definition keeps (T : ctype) (c : completion SnugInt) : Prop :=
  forall this' r, c = Returns this' r -> preserved T this' /\ preserved T r.

(** Every constructor, assignment, arithmetic operator, increment and
    decrement of the class, on well-formed instances [this] and [other],
    a raw operand [raw] of the underlying type and an item of any
    integral type. *)
Definition every_operation_preserves
    (T : ctype) (this other : SnugInt) (raw : Z) (item : rvalue) : Prop :=
  (preserves T (SnugInt_ctor T) /\
   preserves T (SnugInt_ctor_copy T other) /\
   preserves T (SnugInt_ctor_item T item)) /\
  (keeps T (operator_assign this other) /\
   keeps T (operator_assign_Type this raw) /\
   keeps T (operator_plus_assign T this other) /\
   keeps T (operator_plus_assign_Type T this raw)) /\
  (preserves T (SafeAdd T this other) /\
   preserves T (SafeSub T this other) /\
   preserves T (SafeMult T this other) /\
   preserves T (SafeDiv T this other)) /\
  (preserves T (operator_plus T this other) /\
   preserves T (operator_minus T this other) /\
   preserves T (operator_times T this other) /\
   preserves T (operator_divide T this other)) /\
  (preserves T (operator_plus_r T this raw) /\
   preserves T (operator_minus_r T this raw) /\
   preserves T (operator_times_r T this raw) /\
   preserves T (operator_divide_r T this raw)) /\
  (preserves T (operator_plus_l T raw other) /\
   preserves T (operator_minus_l T raw other) /\
   preserves T (operator_times_l T raw other) /\
   preserves T (operator_divide_l T raw other)) /\
  (keeps T (operator_inc T this) /\
   keeps T (operator_inc_post T this) /\
   keeps T (operator_dec T this) /\
   keeps T (operator_dec_post T this)).

(** A wrapper over [T] holding [v]. *)
Definition wrap (T : ctype) (v : Z) : SnugInt :=
  {| value := v; max := numeric_limits_max T; min := numeric_limits_min T |}.

(** Some scenarios, evaluated. *)
Example add_120_10 :
  SafeAdd (Signed W8) (wrap (Signed W8) 120) (wrap (Signed W8) 10) = Throw snugint_add_overflow.
Proof. vm_compute. reflexivity. Qed.

Example add_m120_m10 :
  SafeAdd (Signed W8) (wrap (Signed W8) (-120)) (wrap (Signed W8) (-10)) = Throw snugint_add_underflow.
Proof. vm_compute. reflexivity. Qed.

Example mult_100_2 :
  SafeMult (Signed W8) (wrap (Signed W8) 100) (wrap (Signed W8) 2) = Throw snugint_mult_overflow.
Proof. vm_compute. reflexivity. Qed.

Example ctor_300 :
  SnugInt_ctor_item (Signed W8) (lit 300) = Throw snugint_size_mismatch.
Proof. vm_compute. reflexivity. Qed.

Example add_int_max :
  SafeAdd int (wrap int 2147483000) (wrap int 647) = Ok (wrap int 2147483647).
Proof. vm_compute. reflexivity. Qed.

(** * Properties *)

(** ** Limits and conversions *)

Lemma limits_shape (t : ctype) :
  0 < numeric_limits_max t /\
  (numeric_limits_min t = 0 \/ numeric_limits_min t = - numeric_limits_max t - 1).
Proof.
  destruct t as [w|w]; destruct w; cbn; lia.
Qed.

Lemma limits_signed (t : ctype) :
  is_signed t = true -> numeric_limits_min t = - numeric_limits_max t - 1.
Proof.
  destruct t as [w|w]; cbn; intros; [lia | discriminate].
Qed.

Lemma promote_limits (t : ctype) :
  numeric_limits_min (promote t) <= numeric_limits_min t /\
  numeric_limits_max t <= numeric_limits_max (promote t).
Proof.
  destruct t as [w|w]; destruct w; cbn; lia.
Qed.

Lemma in_range_promote (t : ctype) (v : Z) :
  in_range t v -> in_range (promote t) v.
Proof.
  unfold in_range. pose proof (promote_limits t). lia.
Qed.

Lemma in_rangeb_spec (t : ctype) (v : Z) :
  in_rangeb t v = true <-> in_range t v.
Proof.
  unfold in_rangeb, in_range.
  rewrite andb_true_iff, !Z.leb_le. tauto.
Qed.

Lemma in_rangeb_true (t : ctype) (v : Z) : in_range t v -> in_rangeb t v = true.
Proof. apply in_rangeb_spec. Qed.

Lemma convert_id (t : ctype) (v : Z) : in_range t v -> convert t v = v.
Proof.
  unfold in_range; destruct t as [w|w]; destruct w; cbn; intros H;
    rewrite Z.mod_small; lia.
Qed.

Lemma convert_in_range (t : ctype) (v : Z) : in_range t (convert t v).
Proof.
  unfold in_range; destruct t as [w|w]; destruct w; cbn.
  all: match goal with
       | |- context [?a mod ?m] => pose proof (Z.mod_pos_bound a m ltac:(lia))
       end; lia.
Qed.

(** ** The common type of the operands that occur in the class *)

Lemma uac_same (t : ctype) : usual_arithmetic_conversions t t = promote t.
Proof. destruct t as [w|w]; destruct w; reflexivity. Qed.

Lemma uac_int (t : ctype) : usual_arithmetic_conversions t int = promote t.
Proof. destruct t as [w|w]; destruct w; reflexivity. Qed.

Lemma uac_promote_l (t : ctype) :
  usual_arithmetic_conversions (promote t) t = promote t.
Proof. destruct t as [w|w]; destruct w; reflexivity. Qed.

Lemma uac_promote_r (t : ctype) :
  usual_arithmetic_conversions t (promote t) = promote t.
Proof. destruct t as [w|w]; destruct w; reflexivity. Qed.

(** ** Operators on operands the common type represents exactly *)

Lemma compare_with_exact (rel : Z -> Z -> bool) (a b : rvalue) :
  in_range (usual_arithmetic_conversions (rtype a) (rtype b)) (rval a) ->
  in_range (usual_arithmetic_conversions (rtype a) (rtype b)) (rval b) ->
  compare_with rel a b = rel (rval a) (rval b).
Proof.
  intros Ha Hb. unfold compare_with.
  now rewrite (convert_id _ _ Ha), (convert_id _ _ Hb).
Qed.

Lemma arith_exact (op : Z -> Z -> Z) (a b : rvalue) :
  let t := usual_arithmetic_conversions (rtype a) (rtype b) in
  in_range t (rval a) -> in_range t (rval b) ->
  in_range t (op (rval a) (rval b)) ->
  arith op a b = Ok (Rv t (op (rval a) (rval b))).
Proof.
  intros t Ha Hb Hr. unfold arith. fold t.
  rewrite (convert_id _ _ Ha), (convert_id _ _ Hb).
  destruct t as [w|w].
  - now rewrite (in_rangeb_true _ _ Hr).
  - now rewrite (convert_id _ _ Hr).
Qed.

Lemma op_div_exact (a b : rvalue) :
  let t := usual_arithmetic_conversions (rtype a) (rtype b) in
  in_range t (rval a) -> in_range t (rval b) -> rval b <> 0 ->
  in_range t (rval a ÷ rval b) ->
  op_div a b = Ok (Rv t (rval a ÷ rval b)).
Proof.
  intros t Ha Hb Hnz Hr. unfold op_div. fold t.
  rewrite (convert_id _ _ Hb).
  destruct (Z.eqb_spec (rval b) 0) as [E|_]; [contradiction|].
  now apply arith_exact.
Qed.

Lemma op_div_zero (a b : rvalue) :
  in_range (usual_arithmetic_conversions (rtype a) (rtype b)) (rval b) ->
  rval b = 0 -> op_div a b = Undefined.
Proof.
  intros Hb Hz. unfold op_div.
  rewrite (convert_id _ _ Hb), Hz. reflexivity.
Qed.

(** ** Truncating division against a bound *)

Lemma quot_gt_prod (M l r : Z) :
  0 < l -> 0 < r -> 0 <= M -> (l >? M ÷ r) = (M <? l * r).
Proof.
  intros Hl Hr HM.
  pose proof (Z.quot_rem' M r) as E.
  pose proof (Z.rem_bound_pos M r HM Hr) as B.
  rewrite Z.gtb_ltb.
  destruct (Z.ltb_spec (M ÷ r) l), (Z.ltb_spec M (l * r)); try reflexivity; nia.
Qed.

Lemma quot_lt_min (m l r : Z) :
  0 < l -> m <= 0 -> (r <? m ÷ l) = (l * r <? m).
Proof.
  intros Hl Hm.
  pose proof (Z.quot_rem' m l) as E.
  pose proof (Z.rem_bound_pos_neg m l Hl Hm) as B.
  destruct (Z.ltb_spec r (m ÷ l)), (Z.ltb_spec (l * r) m); try reflexivity; nia.
Qed.

Lemma quot_lt_max (M l r : Z) :
  l < 0 -> 0 <= M -> (r <? M ÷ l) = (M <? l * r).
Proof.
  intros Hl HM.
  pose proof (Z.quot_rem' M l) as E.
  pose proof (Z.rem_bound_neg_pos M l Hl HM) as B.
  destruct (Z.ltb_spec r (M ÷ l)), (Z.ltb_spec M (l * r)); try reflexivity; nia.
Qed.

Lemma quot_bounds_pos (M b : Z) : 0 <= M -> 0 < b -> 0 <= M ÷ b <= M.
Proof.
  intros HM Hb.
  pose proof (Z.quot_rem' M b). pose proof (Z.rem_bound_pos M b HM Hb). nia.
Qed.

Lemma quot_bounds_neg_pos (m a : Z) : m <= 0 -> 0 < a -> m <= m ÷ a <= 0.
Proof.
  intros Hm Ha.
  pose proof (Z.quot_rem' m a). pose proof (Z.rem_bound_pos_neg m a Ha Hm). nia.
Qed.

Lemma quot_bounds_pos_neg (M l : Z) : 0 <= M -> l < 0 -> - M <= M ÷ l <= 0.
Proof.
  intros HM Hl.
  pose proof (Z.quot_rem' M l). pose proof (Z.rem_bound_neg_pos M l Hl HM). nia.
Qed.

(** ** The operand shapes of the member functions *)

Section Shapes.

Variable T : ctype.

Lemma in_range_lit (n : Z) : 0 <= n <= 1 -> in_range (promote T) n.
Proof.
  pose proof (limits_shape (promote T)). unfold in_range. lia.
Qed.

Lemma in_range_limits :
  in_range T (numeric_limits_min T) /\ in_range T (numeric_limits_max T).
Proof.
  pose proof (limits_shape T). unfold in_range. lia.
Qed.

Lemma cmp_TT (rel : Z -> Z -> bool) (a b : Z) :
  in_range T a -> in_range T b ->
  compare_with rel (Rv T a) (Rv T b) = rel a b.
Proof.
  intros Ha Hb. apply (compare_with_exact rel (Rv T a) (Rv T b));
    cbn [rtype rval]; rewrite uac_same; now apply in_range_promote.
Qed.

Lemma cmp_Tlit (rel : Z -> Z -> bool) (a n : Z) :
  in_range T a -> 0 <= n <= 1 ->
  compare_with rel (Rv T a) (lit n) = rel a n.
Proof.
  intros Ha Hn. apply (compare_with_exact rel (Rv T a) (lit n));
    cbn [rtype rval lit]; rewrite uac_int;
    [now apply in_range_promote | now apply in_range_lit].
Qed.

Lemma cmp_PT (rel : Z -> Z -> bool) (a b : Z) :
  in_range (promote T) a -> in_range T b ->
  compare_with rel (Rv (promote T) a) (Rv T b) = rel a b.
Proof.
  intros Ha Hb. apply (compare_with_exact rel (Rv (promote T) a) (Rv T b));
    cbn [rtype rval]; rewrite uac_promote_l;
    [assumption | now apply in_range_promote].
Qed.

Lemma cmp_TP (rel : Z -> Z -> bool) (a b : Z) :
  in_range T a -> in_range (promote T) b ->
  compare_with rel (Rv T a) (Rv (promote T) b) = rel a b.
Proof.
  intros Ha Hb. apply (compare_with_exact rel (Rv T a) (Rv (promote T) b));
    cbn [rtype rval]; rewrite uac_promote_r;
    [now apply in_range_promote | assumption].
Qed.

Lemma arith_TT (op : Z -> Z -> Z) (a b : Z) :
  in_range T a -> in_range T b -> in_range (promote T) (op a b) ->
  arith op (Rv T a) (Rv T b) = Ok (Rv (promote T) (op a b)).
Proof.
  intros Ha Hb Hr.
  pose proof (arith_exact op (Rv T a) (Rv T b)) as E.
  cbn [rtype rval] in E. rewrite uac_same in E.
  apply E; [now apply in_range_promote .. | assumption].
Qed.

Lemma arith_Tlit (op : Z -> Z -> Z) (a n : Z) :
  in_range T a -> 0 <= n <= 1 -> in_range (promote T) (op a n) ->
  arith op (Rv T a) (lit n) = Ok (Rv (promote T) (op a n)).
Proof.
  intros Ha Hn Hr.
  pose proof (arith_exact op (Rv T a) (lit n)) as E.
  cbn [rtype rval lit] in E. rewrite uac_int in E.
  apply E; [now apply in_range_promote | now apply in_range_lit | assumption].
Qed.

Lemma op_div_TT (a b : Z) :
  in_range T a -> in_range T b -> b <> 0 -> in_range (promote T) (a ÷ b) ->
  op_div (Rv T a) (Rv T b) = Ok (Rv (promote T) (a ÷ b)).
Proof.
  intros Ha Hb Hnz Hr.
  pose proof (op_div_exact (Rv T a) (Rv T b)) as E.
  cbn [rtype rval] in E. rewrite uac_same in E.
  apply E; [now apply in_range_promote .. | assumption | assumption].
Qed.

Lemma type_guard_passes :
  cmp_eq (Rv T (numeric_limits_min T)) (Rv T (numeric_limits_max T)) = false.
Proof.
  unfold cmp_eq. rewrite cmp_TT by apply in_range_limits.
  pose proof (limits_shape T). apply Z.eqb_neq. lia.
Qed.

(** The converting constructor on a value of the promoted type, which
    is what every arithmetic expression over [Type] operands yields. *)
Lemma ctor_item_promoted (v : Z) :
  in_range (promote T) v ->
  SnugInt_ctor_item T (Rv (promote T) v) =
    if (numeric_limits_max T <? v) || (v <? numeric_limits_min T)
    then Throw snugint_size_mismatch
    else Ok (wrap T v).
Proof.
  intros Hv. unfold SnugInt_ctor_item.
  rewrite type_guard_passes. unfold cmp_gt, cmp_lt.
  rewrite !cmp_PT by (assumption || apply in_range_limits).
  rewrite Z.gtb_ltb.
  destruct (Z.ltb_spec (numeric_limits_max T) v),
           (Z.ltb_spec v (numeric_limits_min T)); cbn [orb]; try reflexivity.
  cbn [rval]. rewrite convert_id by (unfold in_range; lia). reflexivity.
Qed.

Lemma ctor_item_same (v : Z) :
  in_range T v -> SnugInt_ctor_item T (Rv T v) = Ok (wrap T v).
Proof.
  intros Hv. unfold SnugInt_ctor_item.
  rewrite type_guard_passes. unfold cmp_gt, cmp_lt.
  rewrite !cmp_TT by (assumption || apply in_range_limits).
  rewrite Z.gtb_ltb. unfold in_range in Hv.
  destruct (Z.ltb_spec (numeric_limits_max T) v),
           (Z.ltb_spec v (numeric_limits_min T)); cbn [orb]; try lia.
  cbn [rval]. rewrite convert_id by (unfold in_range; lia). reflexivity.
Qed.

End Shapes.

(** Closes a range side condition from the hypotheses on the operands. *)
Ltac range T :=
  pose proof (promote_limits T); pose proof (limits_shape T);
  unfold in_range in *; lia.

(** The last two statements of each checked function: compute in the
    promoted type, then construct the result. *)
Lemma construct_result (T : ctype) (op : Z -> Z -> Z) (a b : Z) :
  in_range T a -> in_range T b -> in_range (promote T) (op a b) ->
  (r <- arith op (Rv T a) (Rv T b) ;; SnugInt_ctor_item T r) =
    if (numeric_limits_max T <? op a b) || (op a b <? numeric_limits_min T)
    then Throw snugint_size_mismatch
    else Ok (wrap T (op a b)).
Proof.
  intros Ha Hb Hr. rewrite arith_TT by assumption. cbn [bind].
  now apply ctor_item_promoted.
Qed.

(** Runs those two statements and compares with the expected result. *)
Ltac construct T :=
  rewrite construct_result by (try assumption; range T);
  repeat match goal with
         | |- context [?x <? ?y] => destruct (Z.ltb_spec x y)
         end;
  cbn [orb]; try reflexivity; range T.

(** ** SafeAdd and SafeMult decide exactly on the mathematical result *)

Lemma SafeAdd_exact (T : ctype) (left right : SnugInt) :
  wf T left -> wf T right ->
  SafeAdd T left right =
    if numeric_limits_max T <? value left + value right
    then Throw snugint_add_overflow
    else if value left + value right <? numeric_limits_min T
         then Throw snugint_add_underflow
         else Ok (wrap T (value left + value right)).
Proof.
  intros (Hmin & Hmax & Ha) (_ & _ & Hb).
  unfold SafeAdd, val, maxv, minv. rewrite Hmin, Hmax.
  set (a := value left) in *. set (b := value right) in *.
  assert (Hlo : in_range T (numeric_limits_min T)) by apply in_range_limits.
  assert (Hhi : in_range T (numeric_limits_max T)) by apply in_range_limits.
  unfold cmp_gt, cmp_lt, op_sub, op_add.
  rewrite !cmp_Tlit by (assumption || lia). rewrite !Z.gtb_ltb.
  destruct (Z.ltb_spec 0 a) as [Pa|Na], (Z.ltb_spec 0 b) as [Pb|Nb]; cbn [andb].
  - (* + + + = + *)
    rewrite (arith_TT T Z.sub _ a) by (try assumption; range T).
    cbn [bind]. rewrite cmp_PT by (try assumption; range T).
    destruct (Z.ltb_spec (numeric_limits_max T - a) b),
             (Z.ltb_spec (numeric_limits_max T) (a + b)); try lia; cbn [bind].
    + reflexivity.
    + construct T.
  - (* left positive, right not *)
    destruct (Z.ltb_spec a 0); try lia. cbn [andb bind].
    construct T.
  - (* right positive, left not *)
    destruct (Z.ltb_spec b 0); try lia. rewrite andb_false_r. cbn [bind].
    construct T.
  - destruct (Z.ltb_spec a 0) as [Na'|Za], (Z.ltb_spec b 0) as [Nb'|Zb];
      cbn [andb bind].
    + (* - + - = - *)
      rewrite (arith_TT T Z.sub _ a) by (try assumption; range T).
      cbn [bind]. rewrite cmp_PT by (try assumption; range T).
      rewrite Z.gtb_ltb.
      destruct (Z.ltb_spec b (numeric_limits_min T - a)),
               (Z.ltb_spec (numeric_limits_max T) (a + b)),
               (Z.ltb_spec (a + b) (numeric_limits_min T));
        try (range T); cbn [bind]; try reflexivity.
      construct T.
    + construct T.
    + construct T.
    + construct T.
Qed.

Lemma SafeMult_exact (T : ctype) (left right : SnugInt) :
  wf T left -> wf T right ->
  SafeMult T left right =
    if numeric_limits_max T <? value left * value right
    then Throw snugint_mult_overflow
    else if value left * value right <? numeric_limits_min T
         then Throw snugint_mult_underflow
         else Ok (wrap T (value left * value right)).
Proof.
  intros (Hmin & Hmax & Ha) (_ & _ & Hb).
  unfold SafeMult, val, maxv, minv. rewrite Hmin, Hmax.
  set (a := value left) in *. set (b := value right) in *.
  assert (Hlo : in_range T (numeric_limits_min T)) by apply in_range_limits.
  assert (Hhi : in_range T (numeric_limits_max T)) by apply in_range_limits.
  pose proof (limits_shape T) as (Hpos & Hshape).
  assert (Hneg : numeric_limits_min T <= 0) by lia.
  unfold cmp_gt, cmp_lt, cmp_ne, cmp_eq, op_mul.
  rewrite !cmp_Tlit by (assumption || lia). rewrite !Z.gtb_ltb.
  destruct (Z.ltb_spec 0 a) as [Pa|Na], (Z.ltb_spec 0 b) as [Pb|Nb].
  - (* + * + = + *)
    pose proof (quot_bounds_pos (numeric_limits_max T) b ltac:(lia) Pb).
    rewrite op_div_TT by (try assumption; range T).
    cbn [bind]. rewrite cmp_TP by (try assumption; range T).
    rewrite quot_gt_prod by lia.
    destruct (Z.ltb_spec (numeric_limits_max T) (a * b)); cbn [bind]; [reflexivity|].
    assert (0 < a * b) by nia.
    construct T.
  - (* + * - = - *)
    pose proof (quot_bounds_neg_pos (numeric_limits_min T) a Hneg Pa).
    rewrite op_div_TT by (try assumption; range T).
    cbn [bind]. rewrite cmp_TP by (try assumption; range T).
    rewrite quot_lt_min by lia.
    assert (a * b <= 0) by nia.
    destruct (Z.ltb_spec (a * b) (numeric_limits_min T)),
             (Z.ltb_spec (numeric_limits_max T) (a * b));
      cbn [bind]; try reflexivity; try lia.
    construct T.
  - (* - * + = - *)
    pose proof (quot_bounds_neg_pos (numeric_limits_min T) b Hneg Pb).
    rewrite op_div_TT by (try assumption; range T).
    cbn [bind]. rewrite cmp_TP by (try assumption; range T).
    rewrite quot_lt_min by lia. rewrite (Z.mul_comm b a).
    assert (a * b <= 0) by nia.
    destruct (Z.ltb_spec (a * b) (numeric_limits_min T)),
             (Z.ltb_spec (numeric_limits_max T) (a * b));
      cbn [bind]; try reflexivity; try lia.
    construct T.
  - (* - * - = + *)
    assert (0 <= a * b) by nia.
    destruct (Z.eqb_spec a 0) as [Za|Nz]; cbn [negb].
    + cbn [bind]. construct T.
    + pose proof (quot_bounds_pos_neg (numeric_limits_max T) a ltac:(lia) ltac:(lia)).
      rewrite op_div_TT by (try assumption; range T).
      cbn [bind]. rewrite cmp_TP by (try assumption; range T).
      rewrite quot_lt_max by lia.
      destruct (Z.ltb_spec (numeric_limits_max T) (a * b)); cbn [bind]; [reflexivity|].
      construct T.
Qed.

Lemma wf_wrap (T : ctype) (v : Z) : in_range T v -> wf T (wrap T v).
Proof. intros Hv. repeat split; apply Hv. Qed.

Lemma wf_wrapb (T : ctype) (v : Z) : in_rangeb T v = true -> wf T (wrap T v).
Proof. intros Hv. now apply wf_wrap, in_rangeb_spec. Qed.

Lemma wf_invariant (T : ctype) (s : SnugInt) : wf T s -> invariant s.
Proof.
  intros (Hmin & Hmax & Hv). pose proof (limits_shape T).
  unfold invariant, in_range in *. lia.
Qed.

(** ** Checked addition *)

(** C1: over every underlying type, the signed ones in particular,
    [SafeAdd] succeeds with the exact sum when the sum is representable,
    fails with the addition-overflow exception when it exceeds the
    maximum, and with the addition-underflow exception when it falls
    below the minimum. *)
Theorem SafeAdd_signed_sum (T : ctype) (left right : SnugInt) :
  wf T left -> wf T right ->
  (in_range T (value left + value right) ->
     SafeAdd T left right = Ok (wrap T (value left + value right))) /\
  (numeric_limits_max T < value left + value right ->
     SafeAdd T left right = Throw snugint_add_overflow) /\
  (value left + value right < numeric_limits_min T ->
     SafeAdd T left right = Throw snugint_add_underflow).
Proof.
  intros Hl Hr. rewrite (SafeAdd_exact T left right Hl Hr).
  pose proof (limits_shape T). unfold in_range.
  destruct (Z.ltb_spec (numeric_limits_max T) (value left + value right)),
           (Z.ltb_spec (value left + value right) (numeric_limits_min T));
    repeat split; intros; try reflexivity; lia.
Qed.

Lemma SafeAdd_signed_sum_witness :
  SafeAdd (Signed W8) (wrap (Signed W8) 100) (wrap (Signed W8) 27)
    = Ok (wrap (Signed W8) 127) /\
  SafeAdd (Signed W8) (wrap (Signed W8) 120) (wrap (Signed W8) 10)
    = Throw snugint_add_overflow /\
  SafeAdd (Signed W8) (wrap (Signed W8) (-120)) (wrap (Signed W8) (-10))
    = Throw snugint_add_underflow.
Proof.
  split; [|split].
  - apply (SafeAdd_signed_sum (Signed W8) (wrap (Signed W8) 100) (wrap (Signed W8) 27));
      [apply wf_wrapb; reflexivity .. | apply in_rangeb_spec; reflexivity].
  - apply (SafeAdd_signed_sum (Signed W8) (wrap (Signed W8) 120) (wrap (Signed W8) 10));
      [apply wf_wrapb; reflexivity .. | reflexivity].
  - apply (SafeAdd_signed_sum (Signed W8) (wrap (Signed W8) (-120)) (wrap (Signed W8) (-10)));
      [apply wf_wrapb; reflexivity .. | reflexivity].
Defined.

(** ** Checked multiplication *)

(** C4: for in-range operands, the signed ones in particular,
    [SafeMult] fails exactly as the test of the operands' sign quadrant
    says, otherwise it succeeds with the exact product; a zero operand
    gives a zero product. *)
Theorem SafeMult_sign_quadrants (T : ctype) (left right : SnugInt) :
  wf T left -> wf T right ->
  let a := value left in
  let b := value right in
  (0 < a -> 0 < b ->
     SafeMult T left right =
       if a >? max left ÷ b then Throw snugint_mult_overflow
       else Ok (wrap T (a * b))) /\
  (0 < a -> b < 0 ->
     SafeMult T left right =
       if b <? min left ÷ a then Throw snugint_mult_underflow
       else Ok (wrap T (a * b))) /\
  (a < 0 -> 0 < b ->
     SafeMult T left right =
       if a <? min left ÷ b then Throw snugint_mult_underflow
       else Ok (wrap T (a * b))) /\
  (a < 0 -> b < 0 ->
     SafeMult T left right =
       if negb (a =? 0) && (b <? max left ÷ a) then Throw snugint_mult_overflow
       else Ok (wrap T (a * b))) /\
  (a = 0 \/ b = 0 -> SafeMult T left right = Ok (wrap T 0)).
Proof.
  intros Hl Hr a b. rewrite (SafeMult_exact T left right Hl Hr).
  destruct Hl as (Hmin & Hmax & Ha), Hr as (_ & _ & Hb).
  rewrite Hmin, Hmax. fold a b in Ha, Hb |- *.
  pose proof (limits_shape T) as (Hpos & Hshape). unfold in_range in *.
  repeat split.
  - intros Pa Pb. rewrite quot_gt_prod by lia.
    destruct (Z.ltb_spec (numeric_limits_max T) (a * b)); [reflexivity|].
    destruct (Z.ltb_spec (a * b) (numeric_limits_min T)); [nia | reflexivity].
  - intros Pa Nb. rewrite quot_lt_min by lia.
    destruct (Z.ltb_spec (numeric_limits_max T) (a * b)); [nia|].
    reflexivity.
  - intros Na Pb. rewrite quot_lt_min by lia. rewrite (Z.mul_comm b a).
    destruct (Z.ltb_spec (numeric_limits_max T) (a * b)); [nia|].
    reflexivity.
  - intros Na Nb. rewrite quot_lt_max by lia.
    destruct (Z.eqb_spec a 0); [lia|]. cbn [negb andb].
    destruct (Z.ltb_spec (numeric_limits_max T) (a * b)); [reflexivity|].
    destruct (Z.ltb_spec (a * b) (numeric_limits_min T)); [nia | reflexivity].
  - intros Hz. assert (E : a * b = 0) by nia. rewrite E.
    destruct (Z.ltb_spec (numeric_limits_max T) 0); [lia|].
    destruct (Z.ltb_spec 0 (numeric_limits_min T)); [lia | reflexivity].
Qed.

Lemma SafeMult_sign_quadrants_witness :
  let T := Signed W8 in
  SafeMult T (wrap T 100) (wrap T 2) = Throw snugint_mult_overflow /\
  SafeMult T (wrap T 16) (wrap T (-8)) = Ok (wrap T (-128)) /\
  SafeMult T (wrap T (-43)) (wrap T 3) = Throw snugint_mult_underflow /\
  SafeMult T (wrap T (-128)) (wrap T (-1)) = Throw snugint_mult_overflow /\
  SafeMult T (wrap T 0) (wrap T (-128)) = Ok (wrap T 0).
Proof.
  intros T.
  pose proof (fun a b Ha Hb =>
    SafeMult_sign_quadrants T (wrap T a) (wrap T b)
      (wf_wrapb T a Ha) (wf_wrapb T b Hb)) as Q.
  split; [|split; [|split; [|split]]].
  - exact (proj1 (Q 100 2 eq_refl eq_refl) eq_refl eq_refl).
  - exact (proj1 (proj2 (Q 16 (-8) eq_refl eq_refl)) eq_refl eq_refl).
  - exact (proj1 (proj2 (proj2 (Q (-43) 3 eq_refl eq_refl))) eq_refl eq_refl).
  - exact (proj1 (proj2 (proj2 (proj2 (Q (-128) (-1) eq_refl eq_refl)))) eq_refl eq_refl).
  - exact (proj2 (proj2 (proj2 (proj2 (Q 0 (-128) eq_refl eq_refl)))) (or_introl eq_refl)).
Defined.

(** ** Commutativity *)

(** C10: [SafeAdd] and [SafeMult] give the same outcome on swapped
    operands, a result with the same stored value or the same exception,
    and never undefined behaviour. *)
Theorem SafeAdd_SafeMult_commute (T : ctype) (a b : SnugInt) :
  wf T a -> wf T b ->
  (SafeAdd T a b = SafeAdd T b a /\ SafeAdd T a b <> Undefined) /\
  (SafeMult T a b = SafeMult T b a /\ SafeMult T a b <> Undefined).
Proof.
  intros Ha Hb.
  rewrite (SafeAdd_exact T a b Ha Hb), (SafeAdd_exact T b a Hb Ha).
  rewrite (SafeMult_exact T a b Ha Hb), (SafeMult_exact T b a Hb Ha).
  rewrite (Z.add_comm (value b) (value a)), (Z.mul_comm (value b) (value a)).
  split; (split; [reflexivity|]).
  - destruct (_ <? _); [discriminate|]. destruct (_ <? _); discriminate.
  - destruct (_ <? _); [discriminate|]. destruct (_ <? _); discriminate.
Qed.

Lemma SafeAdd_SafeMult_commute_witness :
  let T := Unsigned W16 in
  (SafeAdd T (wrap T 65000) (wrap T 535) = SafeAdd T (wrap T 535) (wrap T 65000) /\
   SafeAdd T (wrap T 65000) (wrap T 535) <> Undefined) /\
  (SafeMult T (wrap T 65000) (wrap T 535) = SafeMult T (wrap T 535) (wrap T 65000) /\
   SafeMult T (wrap T 65000) (wrap T 535) <> Undefined).
Proof.
  intros T.
  apply (SafeAdd_SafeMult_commute T (wrap T 65000) (wrap T 535));
    apply wf_wrapb; reflexivity.
Defined.

(** ** Division *)

(** C2 fails on the code: no exception is thrown for a zero divisor. *)
Lemma SafeDiv_zero_throws_nothing :
  ~ (exists e : exn, SafeDiv int (wrap int 10) (wrap int 0) = Throw e).
Proof. intros (e & H). vm_compute in H. discriminate H. Qed.

(** C2, as the code has it: [SafeDiv] tests nothing before dividing, so
    for every dividend a divisor whose stored value is zero reaches the
    built-in division, whose behaviour is undefined; none of the
    exceptions of the library is thrown. *)
Theorem SafeDiv_zero_divisor (T : ctype) (left right : SnugInt) :
  value right = 0 ->
  SafeDiv T left right = Undefined /\
  (forall e : exn, SafeDiv T left right <> Throw e).
Proof.
  intros Hz.
  assert (E : SafeDiv T left right = Undefined).
  { unfold SafeDiv, val. rewrite op_div_zero; [reflexivity| |assumption].
    cbn [rtype rval]. rewrite Hz, uac_same.
    pose proof (limits_shape (promote T)). unfold in_range. lia. }
  split; [exact E | intros e; rewrite E; discriminate].
Qed.

Lemma SafeDiv_zero_divisor_witness :
  SafeDiv int (wrap int 10) (wrap int 0) = Undefined /\
  (forall e : exn, SafeDiv int (wrap int 10) (wrap int 0) <> Throw e).
Proof.
  apply (SafeDiv_zero_divisor int (wrap int 10) (wrap int 0)). reflexivity.
Defined.

Lemma quot_in_limits (lo hi a b : Z) :
  0 < hi -> lo = 0 \/ lo = - hi - 1 ->
  lo <= a <= hi -> lo <= b <= hi -> b <> 0 ->
  ~ (a = lo /\ b = -1) ->
  lo <= a ÷ b <= hi.
Proof.
  intros Hhi Hlo Ha Hb Hnz Hex.
  pose proof (Z.quot_rem' a b) as E.
  destruct (Z.lt_ge_cases 0 b) as [Pb|Nb], (Z.le_gt_cases 0 a) as [Pa|Na].
  - pose proof (Z.rem_bound_pos_pos a b Pb Pa). nia.
  - pose proof (Z.rem_bound_pos_neg a b Pb ltac:(lia)). nia.
  - pose proof (Z.rem_bound_neg_pos a b ltac:(lia) Pa). nia.
  - pose proof (Z.rem_bound_neg_neg a b ltac:(lia) ltac:(lia)).
    destruct (Z.eq_dec b (-1)) as [->|Hb1]; [nia|].
    assert (b <= -2) by lia. nia.
Qed.

(** C6 fails on the code: the quotient of the minimum by -1 is one more
    than the maximum.  Over an 8-bit type the constructor rejects it,
    over [int] the division itself is undefined. *)
Lemma SafeDiv_min_by_minus_one :
  ~ in_range (Signed W8) (-128 ÷ -1) /\
  SafeDiv (Signed W8) (wrap (Signed W8) (-128)) (wrap (Signed W8) (-1))
    = Throw snugint_size_mismatch /\
  SafeDiv int (wrap int (-2147483648)) (wrap int (-1)) = Undefined.
Proof.
  split; [|split]; [|vm_compute; reflexivity ..].
  unfold in_range. cbn. lia.
Qed.

(** C6, as the code has it: for in-range operands with a non-zero
    divisor, other than the minimum divided by -1, the quotient truncated
    toward zero lies within the limits and [SafeDiv] succeeds with it. *)
Theorem SafeDiv_quotient (T : ctype) (left right : SnugInt) :
  wf T left -> wf T right ->
  value right <> 0 ->
  ~ (value left = numeric_limits_min T /\ value right = -1) ->
  in_range T (value left ÷ value right) /\
  SafeDiv T left right = Ok (wrap T (value left ÷ value right)).
Proof.
  intros (_ & _ & Ha) (_ & _ & Hb) Hnz Hex.
  pose proof (limits_shape T) as (Hpos & Hshape).
  assert (Hq : in_range T (value left ÷ value right))
    by (apply quot_in_limits; assumption).
  split; [exact Hq|].
  unfold SafeDiv, val.
  rewrite op_div_TT by (try assumption; now apply in_range_promote).
  cbn [bind]. rewrite ctor_item_promoted by now apply in_range_promote.
  unfold in_range in Hq.
  destruct (Z.ltb_spec (numeric_limits_max T) (value left ÷ value right)),
           (Z.ltb_spec (value left ÷ value right) (numeric_limits_min T));
    cbn [orb]; try lia. reflexivity.
Qed.

Lemma SafeDiv_quotient_witness :
  in_range (Signed W8) (-127 ÷ 2) /\
  SafeDiv (Signed W8) (wrap (Signed W8) (-127)) (wrap (Signed W8) 2)
    = Ok (wrap (Signed W8) (-63)).
Proof.
  apply (SafeDiv_quotient (Signed W8) (wrap (Signed W8) (-127)) (wrap (Signed W8) 2)).
  - apply wf_wrapb; reflexivity.
  - apply wf_wrapb; reflexivity.
  - cbn. discriminate.
  - cbn. intros (H & _). discriminate H.
Defined.

(** ** Checked subtraction *)

(** C3 fails on the code: over [unsigned int], 1 - 10 passes both sign
    tests, wraps around and is accepted by the constructor; over an
    8-bit unsigned type the difference is computed in [int] and the
    constructor rejects it as a size mismatch. *)
Theorem SafeSub_unsigned_wraps :
  SafeSub (Unsigned W32) (wrap (Unsigned W32) 1) (wrap (Unsigned W32) 10)
    = Ok (wrap (Unsigned W32) 4294967287) /\
  SafeSub (Unsigned W8) (wrap (Unsigned W8) 1) (wrap (Unsigned W8) 10)
    = Throw snugint_size_mismatch.
Proof. split; vm_compute; reflexivity. Qed.

(** C5 fails on the code: zero minus the minimum is one more than the
    maximum, and no test of [SafeSub] covers a zero left operand. *)
Lemma SafeSub_zero_minus_min :
  ~ in_range (Signed W8) (0 - -128) /\
  SafeSub (Signed W8) (wrap (Signed W8) 0) (wrap (Signed W8) (-128))
    = Throw snugint_size_mismatch /\
  SafeSub int (wrap int 0) (wrap int (-2147483648)) = Undefined.
Proof.
  split; [|split]; [|vm_compute; reflexivity ..].
  unfold in_range. cbn. lia.
Qed.

(** C5, as the code has it: over a signed type, for in-range operands
    of the same sign, or of which either is zero, other than zero minus
    the minimum, the difference lies within the limits and [SafeSub]
    succeeds with it. *)
Theorem SafeSub_same_sign (T : ctype) (left right : SnugInt) :
  is_signed T = true -> wf T left -> wf T right ->
  (0 < value left /\ 0 < value right) \/
  (value left < 0 /\ value right < 0) \/
  value left = 0 \/ value right = 0 ->
  ~ (value left = 0 /\ value right = numeric_limits_min T) ->
  in_range T (value left - value right) /\
  SafeSub T left right = Ok (wrap T (value left - value right)).
Proof.
  intros Hs (Hmin & Hmax & Ha) (_ & _ & Hb) Hsign Hex.
  pose proof (limits_signed T Hs) as Hlo.
  set (a := value left) in *. set (b := value right) in *.
  assert (Hd : in_range T (a - b)) by range T.
  split; [exact Hd|].
  unfold SafeSub, val, maxv, minv. fold a b.
  unfold cmp_gt, cmp_lt, op_sub.
  rewrite !cmp_Tlit by (assumption || lia). rewrite !Z.gtb_ltb.
  destruct (Z.ltb_spec 0 a), (Z.ltb_spec b 0), (Z.ltb_spec a 0), (Z.ltb_spec 0 b);
    cbn [andb]; try lia; cbn [bind]; construct T.
Qed.

Lemma SafeSub_same_sign_witness :
  in_range (Signed W8) (-128 - -1) /\
  SafeSub (Signed W8) (wrap (Signed W8) (-128)) (wrap (Signed W8) (-1))
    = Ok (wrap (Signed W8) (-127)).
Proof.
  apply (SafeSub_same_sign (Signed W8) (wrap (Signed W8) (-128)) (wrap (Signed W8) (-1))).
  - reflexivity.
  - apply wf_wrapb; reflexivity.
  - apply wf_wrapb; reflexivity.
  - right; left. cbn. split; reflexivity.
  - cbn. intros (H & _). discriminate H.
Defined.

(** ** Converting construction *)

(** C7 fails on the code: the two comparisons are made after the usual
    arithmetic conversions.  An [int] -1 converted to [unsigned int] is
    the maximum, so it is accepted and stored as 4294967295; against an
    [unsigned int] item the minimum of [int] becomes 2147483648, so the
    in-range item 5 is rejected. *)
Theorem SnugInt_ctor_item_mixed_sign :
  SnugInt_ctor_item (Unsigned W32) (Rv int (-1))
    = Ok (wrap (Unsigned W32) 4294967295) /\
  SnugInt_ctor_item int (Rv (Unsigned W32) 5) = Throw snugint_size_mismatch.
Proof. split; vm_compute; reflexivity. Qed.

(** Where the common type represents the item and both limits, the
    guard of the converting constructor is exact. *)
Lemma SnugInt_ctor_item_exact (T : ctype) (item : rvalue) :
  let t := usual_arithmetic_conversions (rtype item) T in
  in_range t (rval item) ->
  in_range t (numeric_limits_min T) -> in_range t (numeric_limits_max T) ->
  SnugInt_ctor_item T item =
    if in_rangeb T (rval item) then Ok (wrap T (rval item))
    else Throw snugint_size_mismatch.
Proof.
  intros t Hi Hlo Hhi. unfold SnugInt_ctor_item.
  rewrite type_guard_passes. unfold cmp_gt, cmp_lt.
  rewrite !compare_with_exact by assumption. cbn [rval].
  rewrite Z.gtb_ltb. unfold in_rangeb.
  destruct (Z.ltb_spec (numeric_limits_max T) (rval item)),
           (Z.ltb_spec (rval item) (numeric_limits_min T)),
           (Z.leb_spec (numeric_limits_min T) (rval item)),
           (Z.leb_spec (rval item) (numeric_limits_max T));
    cbn [orb andb]; try lia; try reflexivity.
  rewrite convert_id by (unfold in_range; lia). reflexivity.
Qed.

(** ** Increment and decrement *)

Section Stepping.

Variable T : ctype.
Variable this : SnugInt.
Hypothesis Hwf : wf T this.

Lemma copy_of_wf : SnugInt_ctor_copy T this = Ok this.
Proof.
  destruct Hwf as (Hmin & Hmax & _). unfold SnugInt_ctor_copy.
  rewrite Hmin, Hmax, type_guard_passes, <- Hmin, <- Hmax.
  now destruct this.
Qed.

Lemma at_max_test : cmp_eq (val T this) (maxv T this) = (value this =? max this).
Proof.
  destruct Hwf as (_ & Hmax & Hv). unfold cmp_eq, val, maxv.
  apply cmp_TT; [assumption | rewrite Hmax; apply in_range_limits].
Qed.

Lemma at_min_test : cmp_eq (val T this) (minv T this) = (value this =? min this).
Proof.
  destruct Hwf as (Hmin & _ & Hv). unfold cmp_eq, val, minv.
  apply cmp_TT; [assumption | rewrite Hmin; apply in_range_limits].
Qed.

Lemma step_up :
  value this <> max this ->
  step_value T op_add this =
    Returns (set_value this (value this + 1)) (set_value this (value this + 1)).
Proof.
  destruct Hwf as (Hmin & Hmax & Hv). intros Hne.
  assert (Hr : in_range T (value this + 1)) by (unfold in_range in *; lia).
  unfold step_value, op_add, val.
  rewrite arith_Tlit by (try assumption; try lia; now apply in_range_promote).
  cbn [rval]. now rewrite convert_id.
Qed.

Lemma step_down :
  value this <> min this ->
  step_value T op_sub this =
    Returns (set_value this (value this - 1)) (set_value this (value this - 1)).
Proof.
  destruct Hwf as (Hmin & Hmax & Hv). intros Hne.
  assert (Hr : in_range T (value this - 1)) by (unfold in_range in *; lia).
  unfold step_value, op_sub, val.
  rewrite arith_Tlit by (try assumption; try lia; now apply in_range_promote).
  cbn [rval]. now rewrite convert_id.
Qed.

Lemma operator_inc_eq :
  operator_inc T this =
    if value this =? max this then Raises this snugint_add_overflow
    else Returns (set_value this (value this + 1)) (set_value this (value this + 1)).
Proof.
  unfold operator_inc. rewrite at_max_test.
  destruct (Z.eqb_spec (value this) (max this)); [reflexivity|].
  now apply step_up.
Qed.

Lemma operator_inc_post_eq :
  operator_inc_post T this =
    if value this =? max this then Raises this snugint_add_overflow
    else Returns (set_value this (value this + 1)) this.
Proof.
  unfold operator_inc_post. rewrite at_max_test, copy_of_wf, operator_inc_eq.
  now destruct (Z.eqb_spec (value this) (max this)).
Qed.

Lemma operator_dec_eq :
  operator_dec T this =
    if value this =? min this then Raises this snugint_sub_underflow
    else Returns (set_value this (value this - 1)) (set_value this (value this - 1)).
Proof.
  unfold operator_dec. rewrite at_min_test.
  destruct (Z.eqb_spec (value this) (min this)); [reflexivity|].
  now apply step_down.
Qed.

Lemma operator_dec_post_eq :
  operator_dec_post T this =
    if value this =? min this then Raises this snugint_sub_underflow
    else Returns (set_value this (value this - 1)) this.
Proof.
  unfold operator_dec_post. rewrite at_min_test, copy_of_wf, operator_dec_eq.
  now destruct (Z.eqb_spec (value this) (min this)).
Qed.

End Stepping.

(** C8: increment, prefix and postfix, throws the addition-overflow
    exception exactly when the value is the maximum, decrement throws the
    subtraction-underflow exception exactly when the value is the minimum;
    a failure leaves the object as it was, a success moves the value by
    exactly one, and the postfix forms return the object as it was before. *)
Theorem increment_decrement_at_bounds (T : ctype) (this : SnugInt) :
  wf T this ->
  (value this = max this ->
     operator_inc T this = Raises this snugint_add_overflow /\
     operator_inc_post T this = Raises this snugint_add_overflow) /\
  (value this <> max this ->
     operator_inc T this =
       Returns (set_value this (value this + 1)) (set_value this (value this + 1)) /\
     operator_inc_post T this = Returns (set_value this (value this + 1)) this) /\
  (value this = min this ->
     operator_dec T this = Raises this snugint_sub_underflow /\
     operator_dec_post T this = Raises this snugint_sub_underflow) /\
  (value this <> min this ->
     operator_dec T this =
       Returns (set_value this (value this - 1)) (set_value this (value this - 1)) /\
     operator_dec_post T this = Returns (set_value this (value this - 1)) this).
Proof.
  intros Hwf.
  rewrite (operator_inc_eq T this Hwf), (operator_inc_post_eq T this Hwf).
  rewrite (operator_dec_eq T this Hwf), (operator_dec_post_eq T this Hwf).
  destruct (Z.eqb_spec (value this) (max this)),
           (Z.eqb_spec (value this) (min this));
    (split; [|split; [|split]]); intros; try contradiction; split; reflexivity.
Qed.

Lemma increment_decrement_at_bounds_witness :
  let T := Unsigned W8 in
  (operator_inc T (wrap T 255) = Raises (wrap T 255) snugint_add_overflow /\
   operator_inc_post T (wrap T 255) = Raises (wrap T 255) snugint_add_overflow) /\
  (operator_inc T (wrap T 7) = Returns (wrap T 8) (wrap T 8) /\
   operator_inc_post T (wrap T 7) = Returns (wrap T 8) (wrap T 7)) /\
  (operator_dec T (wrap T 0) = Raises (wrap T 0) snugint_sub_underflow /\
   operator_dec_post T (wrap T 0) = Raises (wrap T 0) snugint_sub_underflow) /\
  (operator_dec T (wrap T 7) = Returns (wrap T 6) (wrap T 6) /\
   operator_dec_post T (wrap T 7) = Returns (wrap T 6) (wrap T 7)).
Proof.
  intros T.
  pose proof (fun v Hv => increment_decrement_at_bounds T (wrap T v) (wf_wrapb T v Hv)) as Q.
  split; [|split; [|split]].
  - exact (proj1 (Q 255 eq_refl) eq_refl).
  - apply (proj1 (proj2 (Q 7 eq_refl))). cbn. discriminate.
  - exact (proj1 (proj2 (proj2 (Q 0 eq_refl))) eq_refl).
  - apply (proj2 (proj2 (proj2 (Q 7 eq_refl)))). cbn. discriminate.
Defined.

(** ** The state invariant *)

Lemma bind_Ok {A B : Type} (m : outcome A) (k : A -> outcome B) (b : B) :
  bind m k = Ok b -> exists a, m = Ok a /\ k a = Ok b.
Proof.
  destruct m as [a| |]; cbn; intros H; try discriminate. now exists a.
Qed.

Lemma wf_preserved (T : ctype) (s : SnugInt) : wf T s -> preserved T s.
Proof. intros H. split; [exact H | exact (wf_invariant T s H)]. Qed.

Lemma wf_set_value (T : ctype) (s : SnugInt) (v : Z) :
  wf T s -> in_range T v -> wf T (set_value s v).
Proof. intros (Hmin & Hmax & _) Hv. split; [|split]; assumption. Qed.

Section Invariant.

Variable T : ctype.

Lemma ctor_preserves : preserves T (SnugInt_ctor T).
Proof.
  intros s. unfold SnugInt_ctor. rewrite type_guard_passes.
  intros [= <-]. apply wf_preserved. split; [|split]; try reflexivity.
  pose proof (limits_shape T). unfold in_range. cbn [value]. lia.
Qed.

Lemma ctor_copy_preserves (other : SnugInt) :
  wf T other -> preserves T (SnugInt_ctor_copy T other).
Proof.
  intros Hwf s. rewrite (copy_of_wf T other Hwf). intros [= <-].
  now apply wf_preserved.
Qed.

Lemma ctor_item_preserves (item : rvalue) :
  preserves T (SnugInt_ctor_item T item).
Proof.
  intros s. unfold SnugInt_ctor_item.
  destruct (cmp_eq _ _); [discriminate|].
  destruct (_ || _); [discriminate|].
  intros [= <-]. apply wf_preserved. split; [|split]; try reflexivity.
  apply convert_in_range.
Qed.

(** Every checked function ends in the converting constructor. *)
Lemma constructed_preserves {A : Type} (pre : outcome A) (e : outcome rvalue) :
  preserves T (pre ;;; r <- e ;; SnugInt_ctor_item T r).
Proof.
  intros s H.
  apply bind_Ok in H as (_ & _ & H). apply bind_Ok in H as (r & _ & H).
  exact (ctor_item_preserves r s H).
Qed.

Lemma SafeAdd_preserves (l r : SnugInt) : preserves T (SafeAdd T l r).
Proof. apply constructed_preserves. Qed.

Lemma SafeSub_preserves (l r : SnugInt) : preserves T (SafeSub T l r).
Proof. apply constructed_preserves. Qed.

Lemma SafeMult_preserves (l r : SnugInt) : preserves T (SafeMult T l r).
Proof. apply constructed_preserves. Qed.

Lemma SafeDiv_preserves (l r : SnugInt) : preserves T (SafeDiv T l r).
Proof.
  intros s H. apply bind_Ok in H as (q & _ & H).
  exact (ctor_item_preserves q s H).
Qed.

(** The operators that first wrap a raw operand. *)
Lemma wrapped_preserves (raw : rvalue) (f : SnugInt -> outcome SnugInt) :
  (forall temp, preserves T (f temp)) ->
  preserves T (temp <- SnugInt_ctor_item T raw ;; f temp).
Proof.
  intros Hf s H. apply bind_Ok in H as (temp & _ & H). exact (Hf temp s H).
Qed.

(** [value = ....getValue()] in the two compound assignments. *)
Lemma stored_value_keeps (this : SnugInt) (m : outcome Z) :
  wf T this -> (forall v, m = Ok v -> in_range T v) ->
  keeps T match m with
          | Ok v => let this' := set_value this v in Returns this' this'
          | Throw e => Raises this e
          | Undefined => UB
          end.
Proof.
  intros Hwf Hm this' r.
  destruct m as [v| |]; cbn; intros H; inversion H; subst.
  split; apply wf_preserved, wf_set_value; auto.
Qed.

Lemma getValue_in_range (sum : outcome SnugInt) (v : Z) :
  preserves T sum -> (s <- sum ;; Ok (getValue s)) = Ok v -> in_range T v.
Proof.
  intros Hsum H. apply bind_Ok in H as (s & Hs & [= <-]).
  now destruct (Hsum s Hs) as ((_ & _ & Hv) & _).
Qed.

End Invariant.

(** C9: every successful construction, assignment (the raw one
    included), arithmetic operation, increment and decrement yields
    instances whose limits are those of the underlying type and in which
    min <= value <= max and min < max. *)
Theorem invariant_preserved
    (T : ctype) (this other : SnugInt) (raw : Z) (item : rvalue) :
  wf T this -> wf T other -> in_range T raw ->
  every_operation_preserves T this other raw item.
Proof.
  intros Hthis Hother Hraw. unfold every_operation_preserves.
  split; [|split; [|split; [|split; [|split; [|split]]]]].
  - split; [|split].
    + apply ctor_preserves.
    + now apply ctor_copy_preserves.
    + apply ctor_item_preserves.
  - split; [|split; [|split]].
    + intros this' r [= <- <-]. destruct other as [v hi lo].
      split; now apply wf_preserved.
    + intros this' r [= <- <-].
      split; apply wf_preserved, wf_set_value; assumption.
    + apply stored_value_keeps; [assumption|].
      intros v H. apply bind_Ok in H as (left & _ & H).
      exact (getValue_in_range T _ v (SafeAdd_preserves T left other) H).
    + apply stored_value_keeps; [assumption|].
      intros v H. apply bind_Ok in H as (temp & _ & H).
      apply bind_Ok in H as (left & _ & H).
      exact (getValue_in_range T _ v (SafeAdd_preserves T left temp) H).
  - split; [|split; [|split]].
    + apply SafeAdd_preserves.
    + apply SafeSub_preserves.
    + apply SafeMult_preserves.
    + apply SafeDiv_preserves.
  - split; [|split; [|split]].
    + apply SafeAdd_preserves.
    + apply SafeSub_preserves.
    + apply SafeMult_preserves.
    + apply SafeDiv_preserves.
  - split; [|split; [|split]]; apply wrapped_preserves; intros temp.
    + apply SafeAdd_preserves.
    + apply SafeSub_preserves.
    + apply SafeMult_preserves.
    + apply SafeDiv_preserves.
  - split; [|split; [|split]]; apply wrapped_preserves; intros temp.
    + apply SafeAdd_preserves.
    + apply SafeSub_preserves.
    + apply SafeMult_preserves.
    + apply SafeDiv_preserves.
  - rewrite (operator_inc_eq T this Hthis), (operator_inc_post_eq T this Hthis).
    rewrite (operator_dec_eq T this Hthis), (operator_dec_post_eq T this Hthis).
    assert (Hup : value this <> max this -> wf T (set_value this (value this + 1))).
    { intros Hne. apply wf_set_value; [assumption|].
      destruct Hthis as (_ & Hmax & Hv). unfold in_range in *. lia. }
    assert (Hdown : value this <> min this -> wf T (set_value this (value this - 1))).
    { intros Hne. apply wf_set_value; [assumption|].
      destruct Hthis as (Hmin & _ & Hv). unfold in_range in *. lia. }
    destruct (Z.eqb_spec (value this) (max this)),
             (Z.eqb_spec (value this) (min this));
      (split; [|split; [|split]]); intros this' r H; inversion H; subst;
      split; apply wf_preserved; auto.
Qed.

Lemma invariant_preserved_witness :
  every_operation_preserves (Signed W8)
    (wrap (Signed W8) 120) (wrap (Signed W8) (-10)) 127 (Rv (Signed W64) 300).
Proof.
  apply (invariant_preserved (Signed W8)
           (wrap (Signed W8) 120) (wrap (Signed W8) (-10)) 127 (Rv (Signed W64) 300)).
  - apply wf_wrapb; reflexivity.
  - apply wf_wrapb; reflexivity.
  - apply in_rangeb_spec; reflexivity.
Defined.

(** * Further properties of the class *)

Lemma wf_eq_wrap (T : ctype) (s : SnugInt) : wf T s -> s = wrap T (value s).
Proof.
  intros (Hmin & Hmax & _). destruct s as [v hi lo]. cbn in *. now subst.
Qed.

(** ** Subtraction over the signed types no wider than [int]

    For these types [abs] is applied to an [int] that holds the exact
    operand. *)

Lemma abs_exact (t : ctype) (v : Z) :
  in_range int v -> v <> numeric_limits_min int ->
  abs (Rv t v) = Ok (Rv int (Z.abs v)).
Proof.
  intros Hv Hne. unfold abs. cbn [rval]. rewrite (convert_id int v Hv).
  now destruct (Z.eqb_spec v (numeric_limits_min int)).
Qed.

Section Narrow.

Variable T : ctype.
Hypothesis HP : promote T = int.

Lemma in_range_int (v : Z) : in_range T v -> in_range int v.
Proof. intros Hv. rewrite <- HP. now apply in_range_promote. Qed.

Lemma cmp_II (rel : Z -> Z -> bool) (a b : Z) :
  in_range int a -> in_range int b ->
  compare_with rel (Rv int a) (Rv int b) = rel a b.
Proof. intros Ha Hb. now apply (cmp_TT int). Qed.

Lemma cmp_IT (rel : Z -> Z -> bool) (a b : Z) :
  in_range int a -> in_range T b ->
  compare_with rel (Rv int a) (Rv T b) = rel a b.
Proof.
  intros Ha Hb. rewrite <- HP in Ha |- *. now apply cmp_PT.
Qed.

Lemma limits_within_int :
  numeric_limits_min int <= numeric_limits_min T /\
  numeric_limits_max T <= numeric_limits_max int.
Proof. rewrite <- HP. apply promote_limits. Qed.

End Narrow.

Lemma SafeSub_exact (T : ctype) (left right : SnugInt) :
  promote T = int -> is_signed T = true ->
  wf T left -> wf T right ->
  ~ (value right = numeric_limits_min T /\ 0 <= value left) ->
  SafeSub T left right =
    if numeric_limits_max T <? value left - value right
    then Throw snugint_sub_overflow
    else if value left - value right <? numeric_limits_min T
         then Throw snugint_sub_underflow
         else Ok (wrap T (value left - value right)).
Proof.
  intros HP Hs (Hmin & Hmax & Ha) (_ & _ & Hb) Hex.
  unfold SafeSub, val, maxv, minv. rewrite Hmin, Hmax.
  set (a := value left) in *. set (b := value right) in *.
  assert (Hlo : in_range T (numeric_limits_min T)) by apply in_range_limits.
  assert (Hhi : in_range T (numeric_limits_max T)) by apply in_range_limits.
  pose proof (limits_signed T Hs) as Hshape.
  pose proof (limits_within_int T HP) as (Hil & Hih).
  unfold cmp_gt, cmp_lt, op_sub.
  rewrite !cmp_Tlit by (assumption || lia). rewrite !Z.gtb_ltb.
  destruct (Z.ltb_spec 0 a) as [Pa|Na], (Z.ltb_spec b 0) as [Nb|Pb]; cbn [andb].
  - (* + - - = + *)
    rewrite (arith_TT T Z.sub _ a) by (try assumption; range T).
    cbn [bind]. rewrite HP.
    rewrite abs_exact by (unfold in_range in *; lia).
    cbn [bind]. rewrite cmp_II by (unfold in_range in *; lia).
    destruct (Z.ltb_spec (numeric_limits_max T - a) (Z.abs b)),
             (Z.ltb_spec (numeric_limits_max T) (a - b));
      try lia; cbn [bind]; [reflexivity|].
    construct T.
  - destruct (Z.ltb_spec a 0); [lia|]. cbn [andb bind]. construct T.
  - destruct (Z.ltb_spec a 0) as [Na'|Za], (Z.ltb_spec 0 b) as [Pb'|Zb];
      cbn [andb bind]; try lia; construct T.
  - destruct (Z.ltb_spec a 0) as [Na'|Za], (Z.ltb_spec 0 b) as [Pb'|Zb];
      cbn [andb bind]; try (construct T).
    (* - - + = - *)
    rewrite (arith_TT T Z.sub _ a) by (try assumption; range T).
    cbn [bind]. rewrite HP.
    rewrite abs_exact by (unfold in_range in *; lia).
    cbn [bind]. rewrite cmp_IT by (try assumption; unfold in_range in *; lia).
    destruct (Z.ltb_spec (Z.abs (numeric_limits_min T - a)) b),
             (Z.ltb_spec (numeric_limits_max T) (a - b)),
             (Z.ltb_spec (a - b) (numeric_limits_min T));
      try (unfold in_range in *; lia); cbn [bind]; try reflexivity.
    construct T.
Qed.

(** With the minimum as right operand and a left operand that is not
    negative, no result is returned: the overflow test throws or [abs]
    is undefined for a positive left operand, and for a zero left
    operand the difference is not representable. *)
Lemma SafeSub_min_no_result (T : ctype) (left right : SnugInt) :
  promote T = int -> is_signed T = true ->
  wf T left -> wf T right ->
  value right = numeric_limits_min T -> 0 <= value left ->
  forall s, SafeSub T left right <> Ok s.
Proof.
  intros HP Hs (Hmin & Hmax & Ha) (_ & _ & Hb) Hbm Hpos s.
  unfold SafeSub, val, maxv, minv. rewrite Hmin, Hmax, Hbm.
  set (a := value left) in *.
  assert (Hlo : in_range T (numeric_limits_min T)) by apply in_range_limits.
  assert (Hhi : in_range T (numeric_limits_max T)) by apply in_range_limits.
  pose proof (limits_signed T Hs) as Hshape.
  pose proof (limits_shape T) as (Hmaxpos & _).
  pose proof (limits_within_int T HP) as (Hil & Hih).
  unfold cmp_gt, cmp_lt, op_sub.
  rewrite !cmp_Tlit by (assumption || lia). rewrite !Z.gtb_ltb.
  destruct (Z.ltb_spec (numeric_limits_min T) 0); [|lia].
  destruct (Z.ltb_spec a 0); [lia|].
  destruct (Z.ltb_spec 0 a) as [Pa|Za]; cbn [andb].
  - rewrite (arith_TT T Z.sub _ a) by (try assumption; range T).
    cbn [bind]. rewrite HP. unfold abs. cbn [rval].
    rewrite (convert_id int) by (unfold in_range in *; lia).
    destruct (Z.eqb_spec (numeric_limits_min T) (numeric_limits_min int));
      [discriminate|]. cbn [bind].
    pose proof (limits_signed int eq_refl).
    rewrite cmp_II by (unfold in_range in *; lia).
    destruct (Z.ltb_spec (numeric_limits_max T - a) (Z.abs (numeric_limits_min T)));
      [discriminate | lia].
  - cbn [bind]. assert (a = 0) as -> by lia.
    unfold arith. cbn [rtype rval]. rewrite uac_same, HP.
    rewrite !(convert_id int) by (unfold in_range in *; lia).
    unfold int at 1.
    destruct (in_rangeb int (0 - numeric_limits_min T)) eqn:E; [|discriminate].
    apply in_rangeb_spec in E. cbn [bind]. rewrite <- HP.
    rewrite ctor_item_promoted by (rewrite HP; exact E).
    destruct (Z.ltb_spec (numeric_limits_max T) (0 - numeric_limits_min T));
      [discriminate | lia].
Qed.

(** Over a signed type no wider than [int], [SafeSub] returns the exact
    difference when it is representable, throws the subtraction-overflow
    exception when it exceeds the maximum and the subtraction-underflow
    exception when it falls below the minimum; the one case set aside is
    the minimum subtracted from a value that is not negative. *)
Theorem SafeSub_signed_difference (T : ctype) (left right : SnugInt) :
  promote T = int -> is_signed T = true ->
  wf T left -> wf T right ->
  ~ (value right = numeric_limits_min T /\ 0 <= value left) ->
  (in_range T (value left - value right) ->
     SafeSub T left right = Ok (wrap T (value left - value right))) /\
  (numeric_limits_max T < value left - value right ->
     SafeSub T left right = Throw snugint_sub_overflow) /\
  (value left - value right < numeric_limits_min T ->
     SafeSub T left right = Throw snugint_sub_underflow).
Proof.
  intros HP Hs Hl Hr Hex. rewrite (SafeSub_exact T left right HP Hs Hl Hr Hex).
  pose proof (limits_shape T). unfold in_range.
  destruct (Z.ltb_spec (numeric_limits_max T) (value left - value right)),
           (Z.ltb_spec (value left - value right) (numeric_limits_min T));
    (split; [|split]); intros; try reflexivity; lia.
Qed.

Lemma SafeSub_signed_difference_witness :
  SafeSub int (wrap int 2147483647) (wrap int 2147483647) = Ok (wrap int 0) /\
  SafeSub int (wrap int 2147483647) (wrap int (-1)) = Throw snugint_sub_overflow /\
  SafeSub int (wrap int (-2147483648)) (wrap int 1) = Throw snugint_sub_underflow.
Proof.
  pose proof (fun a b Ha Hb Hex =>
    SafeSub_signed_difference int (wrap int a) (wrap int b) eq_refl eq_refl
      (wf_wrapb int a Ha) (wf_wrapb int b Hb) Hex) as Q.
  split; [|split].
  - apply (Q 2147483647 2147483647 eq_refl eq_refl).
    + cbn. intros (H & _). discriminate H.
    + apply in_rangeb_spec. reflexivity.
  - apply (Q 2147483647 (-1) eq_refl eq_refl).
    + cbn. intros (H & _). discriminate H.
    + reflexivity.
  - apply (Q (-2147483648) 1 eq_refl eq_refl).
    + cbn. intros (H & _). discriminate H.
    + reflexivity.
Defined.

(** Over a signed type no wider than [int], subtraction undoes addition
    and addition undoes subtraction: when [left + right] succeeds,
    subtracting [right] from the sum gives [left] back, and when
    [left - right] succeeds, adding [right] to the difference gives
    [left] back. *)
Theorem SafeAdd_SafeSub_round_trip (T : ctype) (left right : SnugInt) :
  promote T = int -> is_signed T = true ->
  wf T left -> wf T right ->
  (forall s, SafeAdd T left right = Ok s -> SafeSub T s right = Ok left) /\
  (forall d, SafeSub T left right = Ok d -> SafeAdd T d right = Ok left).
Proof.
  intros HP Hs Hl Hr.
  pose proof (limits_signed T Hs) as Hshape.
  pose proof (limits_shape T) as (Hmaxpos & _).
  pose proof Hl as (_ & _ & Ha). pose proof Hr as (_ & _ & Hb).
  unfold in_range in Ha, Hb.
  split.
  - intros s. rewrite (SafeAdd_exact T left right Hl Hr).
    destruct (Z.ltb_spec (numeric_limits_max T) (value left + value right));
      [discriminate|].
    destruct (Z.ltb_spec (value left + value right) (numeric_limits_min T));
      [discriminate|].
    intros [= <-].
    assert (Hs' : wf T (wrap T (value left + value right)))
      by (apply wf_wrap; unfold in_range; lia).
    rewrite (SafeSub_exact T _ right HP Hs Hs' Hr) by (cbn [value wrap]; lia).
    cbn [value wrap].
    replace (value left + value right - value right) with (value left) by lia.
    destruct (Z.ltb_spec (numeric_limits_max T) (value left)); [lia|].
    destruct (Z.ltb_spec (value left) (numeric_limits_min T)); [lia|].
    now rewrite <- (wf_eq_wrap T left Hl).
  - intros d Hd.
    assert (Hex : ~ (value right = numeric_limits_min T /\ 0 <= value left)).
    { intros (Hbm & Hpos).
      exact (SafeSub_min_no_result T left right HP Hs Hl Hr Hbm Hpos d Hd). }
    rewrite (SafeSub_exact T left right HP Hs Hl Hr Hex) in Hd.
    destruct (Z.ltb_spec (numeric_limits_max T) (value left - value right));
      [discriminate|].
    destruct (Z.ltb_spec (value left - value right) (numeric_limits_min T));
      [discriminate|].
    injection Hd as <-.
    assert (Hd' : wf T (wrap T (value left - value right)))
      by (apply wf_wrap; unfold in_range; lia).
    rewrite (SafeAdd_exact T _ right Hd' Hr). cbn [value wrap].
    replace (value left - value right + value right) with (value left) by lia.
    destruct (Z.ltb_spec (numeric_limits_max T) (value left)); [lia|].
    destruct (Z.ltb_spec (value left) (numeric_limits_min T)); [lia|].
    now rewrite <- (wf_eq_wrap T left Hl).
Qed.

Lemma SafeAdd_SafeSub_round_trip_witness :
  SafeSub (Signed W16) (wrap (Signed W16) (-32768)) (wrap (Signed W16) (-20000))
    = Ok (wrap (Signed W16) (-12768)) /\
  SafeAdd (Signed W16) (wrap (Signed W16) 32667) (wrap (Signed W16) 100)
    = Ok (wrap (Signed W16) 32767).
Proof.
  pose proof (fun a b Ha Hb =>
    SafeAdd_SafeSub_round_trip (Signed W16) (wrap (Signed W16) a) (wrap (Signed W16) b)
      eq_refl eq_refl (wf_wrapb _ a Ha) (wf_wrapb _ b Hb)) as Q.
  split.
  - exact (proj1 (Q (-12768) (-20000) eq_refl eq_refl)
             (wrap (Signed W16) (-32768)) eq_refl).
  - exact (proj2 (Q 32767 100 eq_refl eq_refl)
             (wrap (Signed W16) 32667) eq_refl).
Defined.

(** ** Subtraction over the unsigned types *)

(** Over an unsigned type neither sign test of [SafeSub] is ever true,
    so it never throws a subtraction exception.  Where the operands are
    promoted to [int] (8 and 16 bits) a negative difference is rejected
    by the constructor as a size mismatch; over [unsigned int] and wider
    the difference is reduced modulo 2^bits and returned. *)
Theorem SafeSub_unsigned (T : ctype) (left right : SnugInt) :
  is_signed T = false -> wf T left -> wf T right ->
  SafeSub T left right =
    if is_signed (promote T)
    then if value left <? value right
         then Throw snugint_size_mismatch
         else Ok (wrap T (value left - value right))
    else Ok (wrap T (convert T (value left - value right))).
Proof.
  intros Hs (Hmin & Hmax & Ha) (_ & _ & Hb).
  pose proof (limits_shape T) as (Hpos & _).
  assert (Hz : numeric_limits_min T = 0) by (destruct T; [discriminate | reflexivity]).
  unfold SafeSub, val, maxv, minv.
  set (a := value left) in *. set (b := value right) in *.
  unfold cmp_gt, cmp_lt, op_sub.
  rewrite !cmp_Tlit by (assumption || lia).
  destruct (Z.ltb_spec b 0); [unfold in_range in *; lia|].
  destruct (Z.ltb_spec a 0); [unfold in_range in *; lia|].
  rewrite andb_false_r. cbn [andb bind].
  destruct (is_signed (promote T)) eqn:Hp.
  - assert (HP : promote T = int)
      by (destruct T as [w|w]; destruct w; try discriminate; reflexivity).
    pose proof (limits_within_int T HP) as (Hil & Hih).
    pose proof (limits_signed int eq_refl).
    rewrite construct_result by (try assumption; rewrite HP; unfold in_range in *; lia).
    rewrite Hz. unfold in_range in *.
    destruct (Z.ltb_spec (numeric_limits_max T) (a - b)),
             (Z.ltb_spec (a - b) 0), (Z.ltb_spec a b);
      cbn [orb]; try reflexivity; lia.
  - assert (HP : promote T = T)
      by (destruct T as [w|w]; destruct w; try discriminate; reflexivity).
    unfold arith. cbn [rtype rval]. rewrite uac_same, HP.
    rewrite !(convert_id T) by assumption.
    destruct T as [w|w]; [discriminate|].
    cbn [bind]. now rewrite ctor_item_same by apply convert_in_range.
Qed.

Lemma SafeSub_unsigned_witness :
  SafeSub (Unsigned W64) (wrap (Unsigned W64) 12) (wrap (Unsigned W64) 13)
    = Ok (wrap (Unsigned W64) 18446744073709551615) /\
  SafeSub (Unsigned W16) (wrap (Unsigned W16) 12) (wrap (Unsigned W16) 13)
    = Throw snugint_size_mismatch.
Proof.
  split.
  - apply (SafeSub_unsigned (Unsigned W64) (wrap (Unsigned W64) 12) (wrap (Unsigned W64) 13));
      [reflexivity | apply wf_wrapb; reflexivity ..].
  - apply (SafeSub_unsigned (Unsigned W16) (wrap (Unsigned W16) 12) (wrap (Unsigned W16) 13));
      [reflexivity | apply wf_wrapb; reflexivity ..].
Defined.

(** ** What the checked functions can throw *)

(** [SafeAdd] throws nothing but the two addition exceptions and
    [SafeMult] nothing but the two multiplication exceptions: the
    constructor that builds the result never rejects it.  Over an
    unsigned type the underflow exceptions are never thrown either. *)
Theorem SafeAdd_SafeMult_failures (T : ctype) (left right : SnugInt) (e : exn) :
  wf T left -> wf T right ->
  (SafeAdd T left right = Throw e ->
     e = snugint_add_overflow \/
     (e = snugint_add_underflow /\ is_signed T = true)) /\
  (SafeMult T left right = Throw e ->
     e = snugint_mult_overflow \/
     (e = snugint_mult_underflow /\ is_signed T = true)).
Proof.
  intros Hl Hr.
  rewrite (SafeAdd_exact T left right Hl Hr), (SafeMult_exact T left right Hl Hr).
  destruct Hl as (_ & _ & Ha), Hr as (_ & _ & Hb). unfold in_range in *.
  assert (Hu : is_signed T = false -> numeric_limits_min T = 0)
    by (destruct T; [discriminate | reflexivity]).
  split.
  - destruct (Z.ltb_spec (numeric_limits_max T) (value left + value right));
      [intros [= <-]; now left|].
    destruct (Z.ltb_spec (value left + value right) (numeric_limits_min T));
      [|discriminate].
    intros [= <-]. right. split; [reflexivity|].
    destruct (is_signed T); [reflexivity|]. specialize (Hu eq_refl). lia.
  - destruct (Z.ltb_spec (numeric_limits_max T) (value left * value right));
      [intros [= <-]; now left|].
    destruct (Z.ltb_spec (value left * value right) (numeric_limits_min T));
      [|discriminate].
    intros [= <-]. right. split; [reflexivity|].
    destruct (is_signed T); [reflexivity|]. specialize (Hu eq_refl). nia.
Qed.

Lemma SafeAdd_SafeMult_failures_witness :
  (snugint_add_underflow = snugint_add_overflow \/
   (snugint_add_underflow = snugint_add_underflow /\ is_signed (Signed W8) = true)) /\
  (snugint_mult_overflow = snugint_mult_overflow \/
   (snugint_mult_overflow = snugint_mult_underflow /\ is_signed (Unsigned W8) = true)).
Proof.
  split.
  - apply (proj1 (SafeAdd_SafeMult_failures (Signed W8)
             (wrap (Signed W8) (-100)) (wrap (Signed W8) (-100)) snugint_add_underflow
             (wf_wrapb (Signed W8) (-100) eq_refl)
             (wf_wrapb (Signed W8) (-100) eq_refl))).
    reflexivity.
  - apply (proj2 (SafeAdd_SafeMult_failures (Unsigned W8)
             (wrap (Unsigned W8) 16) (wrap (Unsigned W8) 16) snugint_mult_overflow
             (wf_wrapb (Unsigned W8) 16 eq_refl)
             (wf_wrapb (Unsigned W8) 16 eq_refl))).
    reflexivity.
Defined.

(** ** Construction *)

(** When the item's type has the signedness of the underlying type,
    whatever the two widths, the converting constructor throws the
    size-mismatch exception exactly when the item lies outside the
    limits, and otherwise stores the item unchanged. *)
Theorem SnugInt_ctor_item_same_signedness (T : ctype) (item : rvalue) :
  is_signed (rtype item) = is_signed T ->
  in_range (rtype item) (rval item) ->
  SnugInt_ctor_item T item =
    if in_rangeb T (rval item) then Ok (wrap T (rval item))
    else Throw snugint_size_mismatch.
Proof.
  intros Hs Hv. apply SnugInt_ctor_item_exact.
  all: destruct item as [[w|w] v], T as [w'|w']; try discriminate Hs;
    destruct w, w'; unfold in_range in *; cbn in *; lia.
Qed.

Lemma SnugInt_ctor_item_same_signedness_witness :
  SnugInt_ctor_item (Signed W8) (Rv (Signed W64) 300) = Throw snugint_size_mismatch /\
  SnugInt_ctor_item (Unsigned W64) (Rv (Unsigned W8) 255)
    = Ok (wrap (Unsigned W64) 255).
Proof.
  split.
  - apply (SnugInt_ctor_item_same_signedness (Signed W8) (Rv (Signed W64) 300));
      [reflexivity | apply in_rangeb_spec; reflexivity].
  - apply (SnugInt_ctor_item_same_signedness (Unsigned W64) (Rv (Unsigned W8) 255));
      [reflexivity | apply in_rangeb_spec; reflexivity].
Defined.

(** The type guard of the three constructors never fires: default
    construction always gives a wrapper holding 0, converting
    construction never throws the type-mismatch exception, and copying
    an instance gives an equal instance. *)
Theorem type_mismatch_never_thrown (T : ctype) (other : SnugInt) :
  wf T other ->
  SnugInt_ctor T = Ok (wrap T 0) /\
  (forall item, SnugInt_ctor_item T item <> Throw snugint_type_mismatch) /\
  SnugInt_ctor_copy T other = Ok other.
Proof.
  intros Hwf. split; [|split].
  - unfold SnugInt_ctor. now rewrite type_guard_passes.
  - intros item. unfold SnugInt_ctor_item. rewrite type_guard_passes.
    destruct (_ || _); discriminate.
  - now apply copy_of_wf.
Qed.

Lemma type_mismatch_never_thrown_witness :
  SnugInt_ctor (Unsigned W8) = Ok (wrap (Unsigned W8) 0) /\
  (forall item, SnugInt_ctor_item (Unsigned W8) item <> Throw snugint_type_mismatch) /\
  SnugInt_ctor_copy (Unsigned W8) (wrap (Unsigned W8) 200) = Ok (wrap (Unsigned W8) 200).
Proof.
  apply (type_mismatch_never_thrown (Unsigned W8) (wrap (Unsigned W8) 200)).
  apply wf_wrapb. reflexivity.
Defined.

(** ** Compound addition and the operand shapes *)

Lemma set_value_of_result (T : ctype) (this s : SnugInt) :
  wf T this -> wf T s -> set_value this (getValue s) = s.
Proof.
  intros (Hmin & Hmax & _) (Hmin' & Hmax' & _).
  destruct s as [v hi lo]. unfold set_value, getValue. cbn in *. congruence.
Qed.

Lemma plus_assign_from_sum (T : ctype) (this : SnugInt) (sum : outcome SnugInt) :
  wf T this -> preserves T sum ->
  match (s <- sum ;; Ok (getValue s)) with
  | Ok v => let this' := set_value this v in Returns this' this'
  | Throw e => Raises this e
  | Undefined => UB
  end =
  match sum with
  | Ok s => Returns s s
  | Throw e => Raises this e
  | Undefined => UB
  end.
Proof.
  intros Hwf Hsum. destruct sum as [s| |]; cbn; try reflexivity.
  destruct (Hsum s eq_refl) as (Hs & _).
  now rewrite (set_value_of_result T this s Hwf Hs).
Qed.

(** [this += other] behaves as [this = this + other]: when the sum is
    returned the object becomes that sum, and when the addition throws,
    the same exception is thrown and the object is left as it was.  The
    same holds with a raw right operand. *)
Theorem operator_plus_assign_agrees (T : ctype) (this other : SnugInt) (raw : Z) :
  wf T this -> wf T other -> in_range T raw ->
  operator_plus_assign T this other =
    match operator_plus T this other with
    | Ok s => Returns s s
    | Throw e => Raises this e
    | Undefined => UB
    end /\
  operator_plus_assign_Type T this raw =
    match operator_plus_r T this raw with
    | Ok s => Returns s s
    | Throw e => Raises this e
    | Undefined => UB
    end.
Proof.
  intros Hthis Hother Hraw. pose proof Hthis as (_ & _ & Hv).
  unfold operator_plus_assign, operator_plus_assign_Type, operator_plus,
    operator_plus_r, val.
  rewrite !ctor_item_same by assumption. cbn [bind].
  rewrite <- (wf_eq_wrap T this Hthis).
  split; apply (plus_assign_from_sum T); try assumption; apply SafeAdd_preserves.
Qed.

Lemma operator_plus_assign_agrees_witness :
  let T := Signed W8 in
  operator_plus_assign T (wrap T 100) (wrap T 27) = Returns (wrap T 127) (wrap T 127) /\
  operator_plus_assign_Type T (wrap T 100) 28 = Raises (wrap T 100) snugint_add_overflow.
Proof.
  intros T.
  pose proof (fun b raw Hb Hraw =>
    operator_plus_assign_agrees T (wrap T 100) (wrap T b) raw
      (wf_wrapb T 100 eq_refl) (wf_wrapb T b Hb) (proj1 (in_rangeb_spec T raw) Hraw)) as Q.
  split.
  - exact (proj1 (Q 27 0 eq_refl eq_refl)).
  - exact (proj2 (Q 0 28 eq_refl eq_refl)).
Defined.

(** A raw operand of the underlying type is wrapped without failure:
    each operator gives, with a raw value on either side, what it gives
    with a wrapper holding that value. *)
Theorem raw_operand_shapes (T : ctype) (s : SnugInt) (raw : Z) :
  in_range T raw ->
  (operator_plus_r T s raw = operator_plus T s (wrap T raw) /\
   operator_minus_r T s raw = operator_minus T s (wrap T raw) /\
   operator_times_r T s raw = operator_times T s (wrap T raw) /\
   operator_divide_r T s raw = operator_divide T s (wrap T raw)) /\
  (operator_plus_l T raw s = operator_plus T (wrap T raw) s /\
   operator_minus_l T raw s = operator_minus T (wrap T raw) s /\
   operator_times_l T raw s = operator_times T (wrap T raw) s /\
   operator_divide_l T raw s = operator_divide T (wrap T raw) s).
Proof.
  intros Hraw.
  unfold operator_plus_r, operator_minus_r, operator_times_r, operator_divide_r,
    operator_plus_l, operator_minus_l, operator_times_l, operator_divide_l.
  rewrite !ctor_item_same by assumption. cbn [bind].
  split; (split; [|split; [|split]]); reflexivity.
Qed.

Lemma raw_operand_shapes_witness :
  let T := Signed W64 in
  let s := wrap T 1000000 in
  (operator_plus_r T s 100000 = operator_plus T s (wrap T 100000) /\
   operator_minus_r T s 100000 = operator_minus T s (wrap T 100000) /\
   operator_times_r T s 100000 = operator_times T s (wrap T 100000) /\
   operator_divide_r T s 100000 = operator_divide T s (wrap T 100000)) /\
  (operator_plus_l T 100000 s = operator_plus T (wrap T 100000) s /\
   operator_minus_l T 100000 s = operator_minus T (wrap T 100000) s /\
   operator_times_l T 100000 s = operator_times T (wrap T 100000) s /\
   operator_divide_l T 100000 s = operator_divide T (wrap T 100000) s).
Proof.
  intros T s.
  apply (raw_operand_shapes T s 100000). apply in_rangeb_spec. reflexivity.
Defined.

(** ** Increment and decrement against the other operations *)



(** Decrement undoes increment and increment undoes decrement: after a
    successful [++this], [--this] restores the object, and conversely. *)
Theorem increment_decrement_round_trip (T : ctype) (this : SnugInt) :
  wf T this ->
  (forall this' r, operator_inc T this = Returns this' r ->
     operator_dec T this' = Returns this this) /\
  (forall this' r, operator_dec T this = Returns this' r ->
     operator_inc T this' = Returns this this).
Proof.
  intros Hwf. pose proof Hwf as (Hmin & Hmax & Hv). unfold in_range in Hv.
  rewrite (operator_inc_eq T this Hwf), (operator_dec_eq T this Hwf).
  split; intros this' r.
  - destruct (Z.eqb_spec (value this) (max this)); [discriminate|].
    intros [= <- _].
    assert (Hwf' : wf T (set_value this (value this + 1)))
      by (apply wf_set_value; [assumption | unfold in_range; lia]).
    rewrite (operator_dec_eq T _ Hwf'). cbn [value min set_value].
    destruct (Z.eqb_spec (value this + 1) (min this)); [lia|].
    replace (value this + 1 - 1) with (value this) by lia.
    now destruct this.
  - destruct (Z.eqb_spec (value this) (min this)); [discriminate|].
    intros [= <- _].
    assert (Hwf' : wf T (set_value this (value this - 1)))
      by (apply wf_set_value; [assumption | unfold in_range; lia]).
    rewrite (operator_inc_eq T _ Hwf'). cbn [value max set_value].
    destruct (Z.eqb_spec (value this - 1) (max this)); [lia|].
    replace (value this - 1 + 1) with (value this) by lia.
    now destruct this.
Qed.

Lemma increment_decrement_round_trip_witness :
  let T := Signed W8 in
  operator_dec T (wrap T 127) = Returns (wrap T 126) (wrap T 126) /\
  operator_inc T (wrap T (-128)) = Returns (wrap T (-127)) (wrap T (-127)).
Proof.
  intros T.
  pose proof (fun v Hv => increment_decrement_round_trip T (wrap T v) (wf_wrapb T v Hv)) as Q.
  split.
  - exact (proj1 (Q 126 eq_refl) (wrap T 127) (wrap T 127) eq_refl).
  - exact (proj2 (Q (-127) eq_refl) (wrap T (-128)) (wrap T (-128)) eq_refl).
Defined.

(** ** Comparison operators *)

(** Every comparison operator, in each of its three operand shapes,
    decides the corresponding order relation on the stored values: the
    promotion of the operands changes nothing. *)
Theorem comparisons_reflect_values (T : ctype) (left right : SnugInt) (raw : Z) :
  wf T left -> wf T right -> in_range T raw ->
  (operator_lt T left right = (value left <? value right) /\
   operator_gt T left right = (value left >? value right) /\
   operator_eq T left right = (value left =? value right) /\
   operator_ne T left right = negb (value left =? value right) /\
   operator_ge T left right = (value left >=? value right) /\
   operator_le T left right = (value left <=? value right)) /\
  (operator_lt_r T left raw = (value left <? raw) /\
   operator_gt_r T left raw = (value left >? raw) /\
   operator_eq_r T left raw = (value left =? raw) /\
   operator_ne_r T left raw = negb (value left =? raw) /\
   operator_ge_r T left raw = (value left >=? raw) /\
   operator_le_r T left raw = (value left <=? raw)) /\
  (operator_lt_l T raw right = (raw <? value right) /\
   operator_gt_l T raw right = (raw >? value right) /\
   operator_eq_l T raw right = (raw =? value right) /\
   operator_ne_l T raw right = negb (raw =? value right) /\
   operator_ge_l T raw right = (raw >=? value right) /\
   operator_le_l T raw right = (raw <=? value right)).
Proof.
  intros (_ & _ & Ha) (_ & _ & Hb) Hraw.
  unfold operator_lt, operator_gt, operator_eq, operator_ne, operator_ge, operator_le,
    operator_lt_r, operator_gt_r, operator_eq_r, operator_ne_r, operator_ge_r,
    operator_le_r, operator_lt_l, operator_gt_l, operator_eq_l, operator_ne_l,
    operator_ge_l, operator_le_l, cmp_ne, cmp_lt, cmp_gt, cmp_eq, cmp_ge, cmp_le, val.
  rewrite !cmp_TT by assumption.
  split; [|split]; (split; [|split; [|split; [|split; [|split]]]]); reflexivity.
Qed.

Lemma comparisons_reflect_values_witness :
  let T := Unsigned W8 in
  operator_lt T (wrap T 200) (wrap T 255) = true /\
  operator_ge_r T (wrap T 200) 7 = true /\
  operator_ne_l T 7 (wrap T 255) = true.
Proof.
  intros T.
  pose proof (comparisons_reflect_values T (wrap T 200) (wrap T 255) 7
    (wf_wrapb T 200 eq_refl) (wf_wrapb T 255 eq_refl)
    (proj1 (in_rangeb_spec T 7) eq_refl)) as (Q1 & Q2 & Q3).
  split; [|split].
  - exact (proj1 Q1).
  - exact (proj1 (proj2 (proj2 (proj2 (proj2 Q2))))).
  - exact (proj1 (proj2 (proj2 (proj2 Q3)))).
Defined.

(** The six operators on two wrappers are consistent with one another:
    exactly one of [<], [==], [>] holds, [!=], [<=], [>=] are the
    negations of [==], [>], [<], swapping the operands turns [<] into
    [>], and [==] holds exactly when the stored values are equal. *)
Theorem comparisons_consistent (T : ctype) (left right : SnugInt) :
  wf T left -> wf T right ->
  (operator_lt T left right = true /\ operator_eq T left right = false /\
     operator_gt T left right = false \/
   operator_lt T left right = false /\ operator_eq T left right = true /\
     operator_gt T left right = false \/
   operator_lt T left right = false /\ operator_eq T left right = false /\
     operator_gt T left right = true) /\
  operator_ne T left right = negb (operator_eq T left right) /\
  operator_le T left right = negb (operator_gt T left right) /\
  operator_ge T left right = negb (operator_lt T left right) /\
  operator_gt T left right = operator_lt T right left /\
  (operator_eq T left right = true <-> value left = value right).
Proof.
  intros (_ & _ & Ha) (_ & _ & Hb).
  unfold operator_lt, operator_gt, operator_eq, operator_ne, operator_ge, operator_le,
    cmp_ne, cmp_lt, cmp_gt, cmp_eq, cmp_ge, cmp_le, val.
  rewrite !cmp_TT by assumption.
  rewrite Z.gtb_ltb, Z.geb_leb.
  destruct (Z.ltb_spec (value left) (value right)),
           (Z.ltb_spec (value right) (value left)),
           (Z.eqb_spec (value left) (value right)),
           (Z.leb_spec (value left) (value right)),
           (Z.leb_spec (value right) (value left)); try lia; cbn [negb];
    (split; [|split; [|split; [|split; [|split]]]]);
    try reflexivity; try (split; intros; (lia || discriminate || reflexivity));
    tauto.
Qed.

Lemma comparisons_consistent_witness :
  let T := Signed W32 in
  operator_ne T (wrap T (-1)) (wrap T 1) = negb (operator_eq T (wrap T (-1)) (wrap T 1)) /\
  operator_gt T (wrap T (-1)) (wrap T 1) = operator_lt T (wrap T 1) (wrap T (-1)).
Proof.
  intros T.
  pose proof (comparisons_consistent T (wrap T (-1)) (wrap T 1)
    (wf_wrapb T (-1) eq_refl) (wf_wrapb T 1 eq_refl)) as (_ & Q1 & _ & _ & Q2 & _).
  split; [exact Q1 | exact Q2].
Defined.

(** ** Exception messages *)

(** Two different exceptions never carry the same [what()] message. *)
Theorem what_injective (e1 e2 : exn) : what e1 = what e2 -> e1 = e2.
Proof.
  destruct e1, e2; intros H; try reflexivity; discriminate H.
Qed.

Lemma what_injective_witness : snugint_size_mismatch = snugint_size_mismatch.
Proof. apply (what_injective snugint_size_mismatch snugint_size_mismatch). reflexivity. Defined.

(** ** Neutral elements and the product/quotient round trip *)

Lemma SafeDiv_exact (T : ctype) (left right : SnugInt) :
  wf T left -> wf T right ->
  value right <> 0 ->
  ~ (value left = numeric_limits_min T /\ value right = -1) ->
  SafeDiv T left right = Ok (wrap T (value left ÷ value right)).
Proof.
  intros (_ & _ & Ha) (_ & _ & Hb) Hnz Hex.
  pose proof (limits_shape T) as (Hpos & Hshape).
  assert (Hq : in_range T (value left ÷ value right))
    by (apply quot_in_limits; assumption).
  unfold SafeDiv, val.
  rewrite op_div_TT by (try assumption; now apply in_range_promote).
  cbn [bind]. rewrite ctor_item_promoted by now apply in_range_promote.
  unfold in_range in Hq.
  destruct (Z.ltb_spec (numeric_limits_max T) (value left ÷ value right)),
           (Z.ltb_spec (value left ÷ value right) (numeric_limits_min T));
    cbn [orb]; try lia. reflexivity.
Qed.

(** Where neither sign test of [SafeSub] applies and the difference is
    representable, the difference is returned. *)
Lemma SafeSub_untested (T : ctype) (left right : SnugInt) :
  wf T left -> wf T right ->
  ~ (0 < value left /\ value right < 0) ->
  ~ (value left < 0 /\ 0 < value right) ->
  in_range T (value left - value right) ->
  SafeSub T left right = Ok (wrap T (value left - value right)).
Proof.
  intros (Hmin & Hmax & Ha) (_ & _ & Hb) H1 H2 Hd.
  set (a := value left) in *. set (b := value right) in *.
  unfold SafeSub, val, maxv, minv. fold a b.
  unfold cmp_gt, cmp_lt, op_sub.
  rewrite !cmp_Tlit by (assumption || lia). rewrite !Z.gtb_ltb.
  destruct (Z.ltb_spec 0 a), (Z.ltb_spec b 0), (Z.ltb_spec a 0), (Z.ltb_spec 0 b);
    cbn [andb]; try lia; cbn [bind]; construct T.
Qed.

(** Zero is neutral for addition and subtraction and one for
    multiplication and division, over every underlying type: the
    operation succeeds and returns the other operand.  A value minus
    itself and a value times zero give a wrapper holding zero. *)
Theorem neutral_elements (T : ctype) (a : SnugInt) :
  wf T a ->
  (SafeAdd T a (wrap T 0) = Ok a /\ SafeAdd T (wrap T 0) a = Ok a) /\
  (SafeSub T a (wrap T 0) = Ok a /\ SafeSub T a a = Ok (wrap T 0)) /\
  (SafeMult T a (wrap T 1) = Ok a /\ SafeMult T (wrap T 1) a = Ok a /\
   SafeMult T a (wrap T 0) = Ok (wrap T 0)) /\
  SafeDiv T a (wrap T 1) = Ok a.
Proof.
  intros Hwf. pose proof Hwf as (_ & _ & Hv). unfold in_range in Hv.
  pose proof (limits_shape T) as (Hpos & Hshape).
  assert (H0 : wf T (wrap T 0)) by (apply wf_wrap; unfold in_range; lia).
  assert (H1 : wf T (wrap T 1)) by (apply wf_wrap; unfold in_range; lia).
  pose proof (wf_eq_wrap T a Hwf) as E.
  split; [|split; [|split]].
  - rewrite (SafeAdd_exact T a _ Hwf H0), (SafeAdd_exact T _ a H0 Hwf).
    cbn [value wrap]. rewrite Z.add_0_r, Z.add_0_l.
    destruct (Z.ltb_spec (numeric_limits_max T) (value a)); [lia|].
    destruct (Z.ltb_spec (value a) (numeric_limits_min T)); [lia|].
    rewrite <- E. split; reflexivity.
  - split.
    + rewrite (SafeSub_untested T a _ Hwf H0); cbn [value wrap];
        rewrite ?Z.sub_0_r; unfold in_range; try lia.
      rewrite <- E. reflexivity.
    + rewrite (SafeSub_untested T a a Hwf Hwf);
        rewrite ?Z.sub_diag; unfold in_range; try lia. reflexivity.
  - rewrite (SafeMult_exact T a _ Hwf H1), (SafeMult_exact T _ a H1 Hwf),
      (SafeMult_exact T a _ Hwf H0).
    cbn [value wrap]. rewrite Z.mul_1_r, Z.mul_1_l, Z.mul_0_r.
    destruct (Z.ltb_spec (numeric_limits_max T) (value a)); [lia|].
    destruct (Z.ltb_spec (value a) (numeric_limits_min T)); [lia|].
    destruct (Z.ltb_spec (numeric_limits_max T) 0); [lia|].
    destruct (Z.ltb_spec 0 (numeric_limits_min T)); [lia|].
    rewrite <- E. split; [|split]; reflexivity.
  - rewrite (SafeDiv_exact T a _ Hwf H1); cbn [value wrap]; try lia.
    rewrite Z.quot_1_r, <- E. reflexivity.
Qed.

Lemma neutral_elements_witness :
  let T := Signed W64 in
  let a := wrap T (-9223372036854775808) in
  (SafeAdd T a (wrap T 0) = Ok a /\ SafeAdd T (wrap T 0) a = Ok a) /\
  (SafeSub T a (wrap T 0) = Ok a /\ SafeSub T a a = Ok (wrap T 0)) /\
  (SafeMult T a (wrap T 1) = Ok a /\ SafeMult T (wrap T 1) a = Ok a /\
   SafeMult T a (wrap T 0) = Ok (wrap T 0)) /\
  SafeDiv T a (wrap T 1) = Ok a.
Proof.
  intros T a. apply (neutral_elements T a). apply wf_wrapb. reflexivity.
Defined.

(** Division undoes multiplication, over every underlying type: when
    [left * right] succeeds and [right] is not zero, dividing the
    product by [right] gives [left] back. *)
Theorem SafeMult_SafeDiv_round_trip (T : ctype) (left right p : SnugInt) :
  wf T left -> wf T right ->
  value right <> 0 ->
  SafeMult T left right = Ok p ->
  SafeDiv T p right = Ok left.
Proof.
  intros Hl Hr Hnz.
  pose proof Hl as (_ & _ & Ha). pose proof Hr as (_ & _ & Hb).
  pose proof (limits_shape T) as (Hpos & Hshape). unfold in_range in Ha, Hb.
  rewrite (SafeMult_exact T left right Hl Hr).
  destruct (Z.ltb_spec (numeric_limits_max T) (value left * value right));
    [discriminate|].
  destruct (Z.ltb_spec (value left * value right) (numeric_limits_min T));
    [discriminate|].
  intros [= <-].
  assert (Hp : wf T (wrap T (value left * value right)))
    by (apply wf_wrap; unfold in_range; lia).
  rewrite (SafeDiv_exact T _ right Hp Hr Hnz) by (cbn [value wrap]; nia).
  cbn [value wrap]. rewrite Z.quot_mul by assumption.
  now rewrite <- (wf_eq_wrap T left Hl).
Qed.

Lemma SafeMult_SafeDiv_round_trip_witness :
  SafeDiv (Signed W8) (wrap (Signed W8) (-128)) (wrap (Signed W8) (-8))
    = Ok (wrap (Signed W8) 16).
Proof.
  apply (SafeMult_SafeDiv_round_trip (Signed W8)
           (wrap (Signed W8) 16) (wrap (Signed W8) (-8)) (wrap (Signed W8) (-128))).
  - apply wf_wrapb; reflexivity.
  - apply wf_wrapb; reflexivity.
  - cbn. discriminate.
  - reflexivity.
Defined.

(** Over a signed type no wider than [int], [--this] behaves as
    [this = this - 1]: at the minimum both throw the
    subtraction-underflow exception, elsewhere both give the value
    less one. *)
Theorem decrement_is_minus_one (T : ctype) (this : SnugInt) :
  promote T = int -> is_signed T = true -> wf T this ->
  operator_dec T this =
    match operator_minus_r T this 1 with
    | Ok s => Returns s s
    | Throw e => Raises this e
    | Undefined => UB
    end.
Proof.
  intros HP Hs Hwf. pose proof Hwf as (Hmin & Hmax & Hv).
  pose proof (limits_shape T) as (Hpos & _).
  pose proof (limits_signed T Hs) as Hshape.
  assert (H1 : in_range T 1) by (unfold in_range; lia).
  rewrite (operator_dec_eq T this Hwf).
  unfold operator_minus_r. rewrite ctor_item_same by assumption. cbn [bind].
  rewrite (SafeSub_exact T this _ HP Hs Hwf (wf_wrap T _ H1))
    by (cbn [value wrap]; lia).
  cbn [value wrap]. rewrite Hmin. unfold in_range in Hv.
  destruct (Z.eqb_spec (value this) (numeric_limits_min T)),
           (Z.ltb_spec (numeric_limits_max T) (value this - 1)),
           (Z.ltb_spec (value this - 1) (numeric_limits_min T));
    try lia; try reflexivity.
  unfold set_value, wrap. now rewrite Hmin, Hmax.
Qed.

Lemma decrement_is_minus_one_witness :
  operator_dec int (wrap int (-2147483648)) =
    match operator_minus_r int (wrap int (-2147483648)) 1 with
    | Ok s => Returns s s
    | Throw e => Raises (wrap int (-2147483648)) e
    | Undefined => UB
    end.
Proof.
  apply (decrement_is_minus_one int (wrap int (-2147483648)));
    [reflexivity | reflexivity | apply wf_wrapb; reflexivity].
Defined.
